(** * goordinate: a shallow embedding of the coordinator's helpers

    The development follows the Go packages of the repository:

    - [Cborrpc]: the tuple helpers of [cborrpc/cleanup.go];
    - [Coordinatetest]: the [SameTime] checker of
      [coordinate/coordinatetest/helpers.go];
    - [Postgres]: [NewWithClock] and [withTx] of the PostgreSQL backend;
    - [Memory]: the [namespace] object of the in-memory backend.

    Go maps are stdpp's [gmap], Go strings are [string] (a sequence of
    bytes), machine integers are [Z] with their range written out, and
    pointers are locations into explicit heaps. *)

From Stdlib Require Import ZArith Ascii String List.
From stdpp Require Import base tactics option strings list gmap.

Set Warnings "-register-all".
Local Open Scope Z_scope.

(** ** Package cborrpc *)

Module Cborrpc.

(** Modelled from the spec: the dynamic values carried by an [interface{}],
    "a recursively-encoded tagged-union of null, bool, int, float, bytes,
    string, list, map, tuple, UUID".  [PythonTuple] is declared in a file
    of the package that is not among the sources read here; [Detuplify]
    reads its only field, [Items].  A float is kept as its IEEE bit
    pattern and a UUID as its bytes: no operation below looks inside
    either. *)
Inductive value : Type :=
  | VNil
  | VBool (b : bool)
  | VInt (n : Z)
  | VFloat (bits : Z)
  | VBytes (bs : list Byte.byte)
  | VString (s : string)
  | VSlice (items : list value)
  | VMap (entries : list (value * value))
  | VTuple (t : PythonTuple)
  | VUUID (bs : list Byte.byte)
with PythonTuple : Type :=
  | MkPythonTuple (Items : list value).

Definition Items (t : PythonTuple) : list value :=
  match t with MkPythonTuple items => items end.

(** [Detuplify]: the two type assertions in the order of the source.  The
    [nil] slice of the failure case is the empty list. *)
Definition Detuplify (obj : value) : list value * bool :=
  match obj with
  | VTuple tuple => (Items tuple, true)
  | VSlice slice => (slice, true)
  | _ => ([], false)
  end.

(** [SloppyDetuplify]: [Detuplify], and a one-element slice on failure. *)
Definition SloppyDetuplify (obj : value) : list value :=
  let '(slice, ok) := Detuplify obj in
  if ok then slice else [obj].

End Cborrpc.

(** ** Package coordinatetest *)

Module Coordinatetest.

(** A [time.Time] is an absolute instant, here its count of nanoseconds
    from a fixed origin; a [time.Duration] is a signed 64-bit count of
    nanoseconds. *)
Definition Time := Z.
Definition Duration := Z.

Definition minDuration : Duration := - 2 ^ 63.
Definition maxDuration : Duration := 2 ^ 63 - 1.
Definition Microsecond : Duration := 1000.

(** [Time.Sub]: the difference of the two instants, saturated to the
    range of a [Duration] as the [time] package does. *)
Definition Sub (t u : Time) : Duration :=
  let d := t - u in
  if d <? minDuration then minDuration
  else if maxDuration <? d then maxDuration
  else d.

(** A parameter handed to a checker: a [time.Time], or a value of any
    other dynamic type. *)
Inductive param : Type :=
  | PTime (t : Time)
  | PValue (v : Cborrpc.value).

(** [sameTimeChecker.Check]. *)
Definition Check (params : list param) (names : list string) : bool * string :=
  match params with
  | [p0; p1] =>
      match p0 with
      | PTime obtained =>
          match p1 with
          | PTime expected =>
              let maxDelta := 1 * Microsecond in
              let delta := Sub obtained expected in
              ((delta <? maxDelta) && (delta >? - maxDelta), ""%string)
          | _ => (false, "non-Time expected value"%string)
          end
      | _ => (false, "non-Time obtained value"%string)
      end
  | _ => (false, "incorrect number of parameters to SameTime check"%string)
  end.

End Coordinatetest.

(** ** Package postgres *)

Module Postgres.

(** The errors [withTx] tells apart: its type assertion to a [pq.Error]
    pointer succeeds on a driver error, which carries a five-character SQLSTATE
    code, and fails on any other error value. *)
Inductive error : Type :=
  | PqError (Code : string)
  | OtherError (msg : string).

(** The calls the backend makes on [database/sql], in program order. *)
Inductive call (Tx : Type) : Type :=
  | CallOpen (driverName dataSourceName : string)
  | CallUpgrade
  | CallBegin
  | CallExec (tx : Tx) (query : string)
  | CallF (tx : Tx)
  | CallCommit (tx : Tx)
  | CallRollback (tx : Tx).
Arguments CallOpen {Tx} _ _.
Arguments CallUpgrade {Tx}.
Arguments CallBegin {Tx}.
Arguments CallExec {Tx} _ _.
Arguments CallF {Tx} _.
Arguments CallCommit {Tx} _.
Arguments CallRollback {Tx} _.

Section Backend.

(** The database is the environment of the backend.  [World] is its
    state, [DB] a connection pool and [Tx] a transaction handle; each
    library call maps the state before the call to its results and the
    state after it. *)
Context {World DB Tx Clock : Type}.

Record Driver : Type := {
  sql_Open : string -> string -> World -> (DB + error) * World;
  Upgrade : DB -> World -> option error * World;
  db_Begin : World -> (Tx + error) * World;
  tx_Exec : Tx -> string -> World -> option error * World;
  tx_Commit : Tx -> World -> option error * World;
  tx_Rollback : Tx -> World -> option error * World
}.

Variable drv : Driver.

Record pgCoordinate : Type := { db : DB; clock : Clock }.

(** The connection string [NewWithClock] hands to [sql.Open]: the test
    of the source on the length and on the bytes at indices 0 and 1. *)
Definition dataSourceName (connectionString : string) : string :=
  if (2 <=? String.length connectionString)%nat
     && bool_decide (String.get 0 connectionString = Some "/"%char)
     && bool_decide (String.get 1 connectionString = Some "/"%char)
  then ("postgres:" ++ connectionString)%string
  else connectionString.

(** [NewWithClock], with the calls it made.  The registrations with the
    gob library have no result and are left out. *)
Definition NewWithClock (connectionString : string) (clk : Clock) (w : World)
  : (option pgCoordinate * option error) * World * list (call Tx) :=
  let connectionString := dataSourceName connectionString in
  let '(r, w1) := sql_Open drv "postgres" connectionString w in
  let log1 := [CallOpen "postgres" connectionString] in
  match r with
  | inr err => ((None, Some err), w1, log1)
  | inl d =>
      let '(err, w2) := Upgrade drv d w1 in
      let log2 := log1 ++ [CallUpgrade] in
      match err with
      | Some e => ((None, Some e), w2, log2)
      | None => ((Some {| db := d; clock := clk |}, None), w2, log2)
      end
  end.

(** *** withTx *)

(** The variables of [withTx] ([tx], [done] and the named result [err]),
    with the state of the database and the calls made so far. *)
Record frame : Type := {
  tx : option Tx;
  done : bool;
  err : option error;
  world : World;
  log : list (call Tx)
}.

Definition isolation : string :=
  "SET TRANSACTION ISOLATION LEVEL REPEATABLE READ".

Definition is_serialization_failure (e : option error) : bool :=
  match e with
  | Some (PqError Code) => String.eqb Code "40001"
  | _ => false
  end.

(** How one pass through the body of the [for] loop ends. *)
Inductive flow : Type := Continue | Leave.

Variable f : Tx -> World -> option error * World.

(** One pass through the loop body.  [done] is declared outside the
    loop and only ever assigned [true].  A [Begin] that fails gives no
    transaction, so [tx] is [nil] after it. *)
Definition attempt (fr : frame) : flow * frame :=
  let '(r, w1) := db_Begin drv (world fr) in
  let log1 := log fr ++ [CallBegin] in
  match r with
  | inr e =>
      (Leave, {| tx := None; done := done fr; err := Some e;
                 world := w1; log := log1 |})
  | inl t =>
      let '(e1, w2) := tx_Exec drv t isolation w1 in
      let log2 := log1 ++ [CallExec t isolation] in
      match e1 with
      | Some e =>
          (Leave, {| tx := Some t; done := done fr; err := Some e;
                     world := w2; log := log2 |})
      | None =>
          let '(e2, w3) := f t w2 in
          let log3 := log2 ++ [CallF t] in
          let '(e3, done3, w4, log4) :=
            match e2 with
            | None =>
                let '(ec, wc) := tx_Commit drv t w3 in
                (ec, true, wc, log3 ++ [CallCommit t])
            | Some _ => (e2, done fr, w3, log3)
            end in
          if is_serialization_failure e3 then
            let '(er, w5) := tx_Rollback drv t w4 in
            let log5 := log4 ++ [CallRollback t] in
            match er with
            | Some e =>
                (Leave, {| tx := Some t; done := done3; err := Some e;
                           world := w5; log := log5 |})
            | None =>
                (Continue, {| tx := None; done := done3; err := None;
                              world := w5; log := log5 |})
            end
          else
            (Leave, {| tx := Some t; done := done3; err := e3;
                       world := w4; log := log4 |})
      end
  end.

(** The loop has no bound in the source; [fuel] bounds the number of
    passes of the model, and [None] says the bound was reached. *)
Fixpoint loop (fuel : nat) (fr : frame) : option frame :=
  match fuel with
  | O => None
  | S fuel' =>
      match attempt fr with
      | (Continue, fr') => loop fuel' fr'
      | (Leave, fr') => Some fr'
      end
  end.

(** The deferred function, run when [withTx] returns. *)
Definition deferred (fr : frame) : frame :=
  match tx fr with
  | Some t =>
      if negb (done fr) then
        let '(err2, w) := tx_Rollback drv t (world fr) in
        {| tx := tx fr; done := done fr;
           err := match err fr with None => err2 | Some e => Some e end;
           world := w; log := log fr ++ [CallRollback t] |}
      else fr
  | None => fr
  end.

Definition enter (w : World) : frame :=
  {| tx := None; done := false; err := None; world := w; log := [] |}.

(** [withTx]: the error returned, the state of the database and the
    calls made. *)
Definition withTx (fuel : nat) (w : World)
  : option (option error * World * list (call Tx)) :=
  fr ← loop fuel (enter w);
  let fr' := deferred fr in
  Some (err fr', world fr', log fr').

End Backend.

Arguments Driver : clear implicits.
Arguments pgCoordinate : clear implicits.
Arguments frame : clear implicits.

(** *** Databases to run [withTx] against *)

(** A database as [database/sql] presents it: transactions are numbered
    as they are begun, and a transaction is finished once [Commit] or
    [Rollback] was called on it, whatever that call returned; every
    later call on it reports [ErrTxDone]. *)
Record txWorld : Type := {
  begun : nat;
  finished : list nat
}.

Definition ErrTxDone : error :=
  OtherError "sql: Transaction has already been committed or rolled back".

Definition finish (t : nat) (w : txWorld) : txWorld :=
  {| begun := begun w; finished := t :: finished w |}.

(** Such a database, on which every commit reports a serialization
    failure. *)
Definition conflictingCommits : Driver txWorld unit nat := {|
  sql_Open := fun _ _ w => (inl tt, w);
  Upgrade := fun _ w => (None, w);
  db_Begin := fun w =>
    (inl (begun w), {| begun := S (begun w); finished := finished w |});
  tx_Exec := fun t _ w =>
    (if bool_decide (t ∈ finished w) then Some ErrTxDone else None, w);
  tx_Commit := fun t w =>
    if bool_decide (t ∈ finished w) then (Some ErrTxDone, w)
    else (Some (PqError "40001"), finish t w);
  tx_Rollback := fun t w =>
    if bool_decide (t ∈ finished w) then (Some ErrTxDone, w)
    else (None, finish t w)
|}.

(** A closure that does its work without error. *)
Definition alwaysSucceeds (t : nat) (w : txWorld) : option error * txWorld :=
  (None, w).

(** The databases below keep, as their state, the number of calls of
    the closure so far; a transaction handle is the value of that
    counter when the transaction began. *)

(** A database that accepts every call. *)
Definition agreeable : Driver nat unit nat := {|
  sql_Open := fun _ _ w => (inl tt, w);
  Upgrade := fun _ w => (None, w);
  db_Begin := fun w => (inl w, w);
  tx_Exec := fun _ _ w => (None, w);
  tx_Commit := fun _ w => (None, w);
  tx_Rollback := fun _ w => (None, w)
|}.

(** A closure that reports a serialization failure on each of its first
    [n] calls and succeeds on the next. *)
Definition conflictsFirst (n : nat) (t w : nat) : option error * nat :=
  (if (w <? n)%nat then Some (PqError "40001") else None, S w).

(** The number of calls of the closure in a log. *)
Fixpoint callsOfF {Tx : Type} (l : list (call Tx)) : nat :=
  match l with
  | [] => O
  | CallF _ :: l' => S (callsOfF l')
  | _ :: l' => callsOfF l'
  end.

End Postgres.

(** ** Package memory *)

Module Memory.

Import Cborrpc.

(** A pointer is a location into the heap of its type. *)
Definition loc := positive.

(** The errors of package [coordinate] that the namespace returns.
    [ErrOther] stands for any error that [setData] may report. *)
Inductive error : Type :=
  | ErrNoWorkSpecName
  | ErrBadWorkSpecName
  | ErrNoSuchWorkSpec (Name : string)
  | ErrOther (msg : string).

(** The work spec and worker objects are declared in files of the package
    that are not among the sources read here, with their constructors
    [newWorkSpec] and [newWorker] and the method [setData].  The
    namespace treats them as opaque, so they are parameters here.  [setData] mutates its receiver
    only: it maps the object before the call to the object after it and
    the error returned.  [workSpec_data] and [workSpec_workUnits] read the
    data dictionary and the work units of a work spec. *)
Class Objects : Type := {
  workSpec : Type;
  workUnit : Type;
  worker : Type;
  newWorkSpec : loc -> string -> workSpec;
  setData : workSpec -> gmap string value -> workSpec * option error;
  workSpec_data : workSpec -> gmap string value;
  workSpec_workUnits : workSpec -> gmap string workUnit;
  newWorker : loc -> string -> worker
}.

(** [namespace]: the [coordinate] field points to the one coordinator of
    the state below and is left implicit. *)
Record namespace : Type := {
  name : string;
  workSpecs : gmap string loc;
  workers : gmap string loc
}.

Definition newNamespace (name : string) : namespace :=
  {| name := name; workSpecs := ∅; workers := ∅ |}.

Section Namespace.

Context `{Objects}.

(** The object graph of one coordinator: its [namespaces] map and the
    heaps that the pointers of the graph refer to. *)
Record memState : Type := {
  namespaces : gmap string loc;
  nsHeap : gmap loc namespace;
  specHeap : gmap loc workSpec;
  workerHeap : gmap loc worker
}.

Definition set_namespaces (m : gmap string loc) (st : memState) : memState :=
  {| namespaces := m; nsHeap := nsHeap st;
     specHeap := specHeap st; workerHeap := workerHeap st |}.

Definition store_ns (ns : loc) (o : namespace) (st : memState) : memState :=
  {| namespaces := namespaces st; nsHeap := <[ns := o]> (nsHeap st);
     specHeap := specHeap st; workerHeap := workerHeap st |}.

Definition store_spec (l : loc) (s : workSpec) (st : memState) : memState :=
  {| namespaces := namespaces st; nsHeap := nsHeap st;
     specHeap := <[l := s]> (specHeap st); workerHeap := workerHeap st |}.

Definition store_worker (l : loc) (w : worker) (st : memState) : memState :=
  {| namespaces := namespaces st; nsHeap := nsHeap st;
     specHeap := specHeap st; workerHeap := <[l := w]> (workerHeap st) |}.

Definition set_workSpecs (m : gmap string loc) (o : namespace) : namespace :=
  {| name := name o; workSpecs := m; workers := workers o |}.

Definition set_workers (m : gmap string loc) (o : namespace) : namespace :=
  {| name := name o; workSpecs := workSpecs o; workers := m |}.

(** Every operation takes the handle [ns] and the state, and returns
    its results with the state after it; [None] is a dereference of a
    pointer that is not allocated, which no handle obtained from the
    coordinator gives.  The operations run one at a time here, so the
    calls of [globalLock] and [globalUnlock] have no counterpart. *)

(** [namespace.Destroy] *)
Definition Destroy (ns : loc) (st : memState) : option (option error * memState) :=
  o ← nsHeap st !! ns;
  Some (None, set_namespaces (delete (name o) (namespaces st)) st).

(** [namespace.SetWorkSpec].  Indexing a Go map gives [nil] for a key
    that is absent, as for a key bound to [nil]. *)
Definition SetWorkSpec (ns : loc) (data : gmap string value) (st : memState)
  : option ((option loc * option error) * memState) :=
  o ← nsHeap st !! ns;
  let nameI := default VNil (data !! "name"%string) in
  match nameI with
  | VNil => Some ((None, Some ErrNoWorkSpecName), st)
  | VString name =>
      let '(spec, st1) :=
        match workSpecs o !! name with
        | Some l => (l, st)
        | None =>
            let l := fresh (dom (specHeap st)) in
            (l, store_ns ns (set_workSpecs (<[name := l]> (workSpecs o)) o)
                  (store_spec l (newWorkSpec ns name) st))
        end in
      s ← specHeap st1 !! spec;
      let '(s', err) := setData s data in
      let st2 := store_spec spec s' st1 in
      match err with
      | Some e => Some ((None, Some e), st2)
      | None => Some ((Some spec, None), st2)
      end
  | _ => Some ((None, Some ErrBadWorkSpecName), st)
  end.

(** [namespace.WorkSpec] *)
Definition WorkSpec (ns : loc) (name : string) (st : memState)
  : option ((option loc * option error) * memState) :=
  o ← nsHeap st !! ns;
  match workSpecs o !! name with
  | None => Some ((None, Some (ErrNoSuchWorkSpec name)), st)
  | Some workSpec => Some ((Some workSpec, None), st)
  end.

(** [namespace.DestroyWorkSpec] *)
Definition DestroyWorkSpec (ns : loc) (name : string) (st : memState)
  : option (option error * memState) :=
  o ← nsHeap st !! ns;
  match workSpecs o !! name with
  | Some _ =>
      Some (None, store_ns ns (set_workSpecs (delete name (workSpecs o)) o) st)
  | None => Some (Some (ErrNoSuchWorkSpec name), st)
  end.

(** [namespace.Worker] *)
Definition Worker (ns : loc) (name : string) (st : memState)
  : option ((loc * option error) * memState) :=
  o ← nsHeap st !! ns;
  match workers o !! name with
  | Some worker => Some ((worker, None), st)
  | None =>
      let worker := fresh (dom (workerHeap st)) in
      Some ((worker, None),
            store_ns ns (set_workers (<[name := worker]> (workers o)) o)
              (store_worker worker (newWorker ns name) st))
  end.

(** [namespace.Workers]: a new map with the entries of [ns.workers]. *)
Definition Workers (ns : loc) (st : memState)
  : option ((gmap string loc * option error) * memState) :=
  o ← nsHeap st !! ns;
  Some ((workers o, None), st).

(** The pointers to work specs held by the namespaces are allocated. *)
Definition wf (st : memState) : Prop :=
  ∀ (ns : loc) (o : namespace) (n : string) (l : loc),
    nsHeap st !! ns = Some o → workSpecs o !! n = Some l →
    is_Some (specHeap st !! l).

End Namespace.

Arguments memState : clear implicits.
Arguments memState {_}.

(** *** An instance of the objects *)

(** Modelled from the spec: a work spec of the in-memory backend (its
    struct and [setData] are in a file that is not among the sources read
    here).  It holds
    its name, its data dictionary, the derived priority and weight, and
    its work units, each a data dictionary under its name. *)
Record specObject : Type := {
  so_name : string;
  so_data : gmap string value;
  so_priority : Z;
  so_weight : Z;
  so_workUnits : gmap string (gmap string value)
}.

(** Modelled from the spec: [newWorkSpec], a spec with no data and no
    work units, with the default priority 0 and weight 20. *)
Definition spec_newWorkSpec (ns : loc) (name : string) : specObject :=
  {| so_name := name; so_data := ∅; so_priority := 0; so_weight := 20;
     so_workUnits := ∅ |}.

(** Modelled from the spec: [setData].  "weight must parse to a positive
    integer (falls back to 20 if absent)", "priority defaults to 0"; on
    success "its data is replaced and its derived metadata recomputed;
    pending and active work units are preserved"; data that fails
    validation is rejected and the spec is left as it was. *)
Definition spec_setData (s : specObject) (data : gmap string value)
  : specObject * option error :=
  let weight :=
    match data !! "weight"%string with
    | None => Some 20
    | Some (VInt n) => if 0 <? n then Some n else None
    | Some _ => None
    end in
  let priority :=
    match data !! "priority"%string with
    | Some (VInt p) => p
    | _ => 0
    end in
  match weight with
  | None => (s, Some (ErrOther "weight"))
  | Some w =>
      ({| so_name := so_name s; so_data := data; so_priority := priority;
          so_weight := w; so_workUnits := so_workUnits s |}, None)
  end.

(** Modelled from the spec: a worker, identified by its namespace and its
    name. *)
Definition specObjects : Objects := {|
  workSpec := specObject;
  workUnit := gmap string value;
  worker := loc * string;
  newWorkSpec := spec_newWorkSpec;
  setData := spec_setData;
  workSpec_data := so_data;
  workSpec_workUnits := so_workUnits;
  newWorker := fun ns name => (ns, name)
|}.

(** A coordinator with the default namespace [""], at location 1, that
    holds nothing yet. *)
Definition emptyState : @memState specObjects := {|
  namespaces := {[ ""%string := 1%positive ]};
  nsHeap := {[ 1%positive := newNamespace "" ]};
  specHeap := ∅;
  workerHeap := ∅
|}.

(** The same coordinator after a work spec ["s1"] with one work unit
    ["u1"] was stored at location 1. *)
Definition busyNamespace : namespace :=
  {| name := ""; workSpecs := {[ "s1"%string := 1%positive ]};
     workers := ∅ |}.

Definition busySpec : specObject :=
  {| so_name := "s1";
     so_data := {[ "name"%string := VString "s1" ]};
     so_priority := 0; so_weight := 20;
     so_workUnits := {[ "u1"%string := ∅ ]} |}.

Definition busyState : @memState specObjects := {|
  namespaces := {[ ""%string := 1%positive ]};
  nsHeap := {[ 1%positive := busyNamespace ]};
  specHeap := {[ 1%positive := busySpec ]};
  workerHeap := ∅
|}.

(** The data of scenario 1 of the spec, and the state of [busyState]
    after it is set. *)
Definition sampleData : gmap string value :=
  {[ "name"%string := VString "s1"; "priority"%string := VInt 1 ]}.

Definition updatedSpec : specObject :=
  {| so_name := "s1"; so_data := sampleData;
     so_priority := 1; so_weight := 20;
     so_workUnits := {[ "u1"%string := ∅ ]} |}.

Definition updatedState : @memState specObjects := {|
  namespaces := {[ ""%string := 1%positive ]};
  nsHeap := {[ 1%positive := busyNamespace ]};
  specHeap := {[ 1%positive := updatedSpec ]};
  workerHeap := ∅
|}.

End Memory.

(** ** Further functions of the packages *)

(** *** postgres: scanRows, and more databases *)

Module PostgresRows.

Import Postgres.

(** A [sql.Rows] as [scanRows] sees it: the rows that [Next] delivers
    before it returns false, the error that [Err] reports after that,
    and the result of [Close]. *)
Record Rows (Row : Type) : Type := {
  pending : list Row;
  rowsErr : option error;
  closeErr : option error
}.
Arguments pending {Row} _.
Arguments rowsErr {Row} _.
Arguments closeErr {Row} _.

(** The calls [scanRows] makes: the callback on a row, and [Close]. *)
Inductive rowCall (Row : Type) : Type :=
  | CallScan (r : Row)
  | CallClose.
Arguments CallScan {Row} _.
Arguments CallClose {Row}.

Section ScanRows.

Context {Row S : Type}.

(** The callback reads the current row and updates what it captured. *)
Variable f : Row -> S -> option error * S.

(** The [for rows.Next()] loop: it is left at the first error of the
    callback ([done] still false), or when the rows are used up. *)
Fixpoint scanLoop (rs : list Row) (s : S) (log : list (rowCall Row))
  : bool * option error * S * list (rowCall Row) :=
  match rs with
  | [] => (true, None, s, log)
  | r :: rs' =>
      let '(e, s') := f r s in
      let log' := log ++ [CallScan r] in
      match e with
      | Some _ => (false, e, s', log')
      | None => scanLoop rs' s' log'
      end
  end.

(** [scanRows]: after the loop [done] is set and the error is that of
    [rows.Err()]; the deferred function closes the rows when [done] is
    not set, and keeps an error that is already there. *)
Definition scanRows (rows : Rows Row) (s : S)
  : option error * S * list (rowCall Row) :=
  let '(done, e, s', log) := scanLoop (pending rows) s [] in
  if done then (rowsErr rows, s', log)
  else (match e with None => closeErr rows | Some e' => Some e' end,
        s', log ++ [CallClose]).

(** What the callback has captured after it was run on each of [rs] in
    turn, and whether it accepts each of them on the way. *)
Fixpoint stateAfter (rs : list Row) (s : S) : S :=
  match rs with
  | [] => s
  | r :: rs' => stateAfter rs' (f r s).2
  end.

Fixpoint acceptsAll (rs : list Row) (s : S) : Prop :=
  match rs with
  | [] => True
  | r :: rs' => (f r s).1 = None ∧ acceptsAll rs' (f r s).2
  end.

End ScanRows.

(** A database on which no transaction can be begun. *)
Definition unreachable : Driver nat unit nat := {|
  sql_Open := fun _ _ w => (inr (OtherError "down"), w);
  Upgrade := fun _ w => (None, w);
  db_Begin := fun w => (inr (OtherError "down"), w);
  tx_Exec := fun _ _ w => (None, w);
  tx_Commit := fun _ w => (None, w);
  tx_Rollback := fun _ w => (None, w)
|}.

(** A database that refuses every statement. *)
Definition readOnly : Driver nat unit nat := {|
  sql_Open := fun _ _ w => (inl tt, w);
  Upgrade := fun _ w => (Some (OtherError "read-only"), w);
  db_Begin := fun w => (inl w, w);
  tx_Exec := fun _ _ w => (Some (OtherError "read-only"), w);
  tx_Commit := fun _ w => (None, w);
  tx_Rollback := fun _ w => (None, w)
|}.

(** A database whose commits fail with an error that is no
    serialization failure. *)
Definition diskFull : Driver nat unit nat := {|
  sql_Open := fun _ _ w => (inl tt, w);
  Upgrade := fun _ w => (None, w);
  db_Begin := fun w => (inl w, w);
  tx_Exec := fun _ _ w => (None, w);
  tx_Commit := fun _ w => (Some (PqError "53100"), w);
  tx_Rollback := fun _ w => (None, w)
|}.

(** A database that reports a serialization failure on commit, and
    refuses to roll back a transaction on which commit was called. *)
Definition strictTx : Driver nat unit nat := {|
  sql_Open := fun _ _ w => (inl tt, w);
  Upgrade := fun _ w => (None, w);
  db_Begin := fun w => (inl w, w);
  tx_Exec := fun _ _ w => (None, w);
  tx_Commit := fun _ w => (Some (PqError "40001"), w);
  tx_Rollback := fun _ w => (Some (OtherError "transaction is done"), w)
|}.

(** A closure that succeeds, and one that fails. *)
Definition succeeds (t w : nat) : option error * nat := (None, S w).
Definition fails (t w : nat) : option error * nat :=
  (Some (OtherError "boom"), S w).

(** A callback that adds up the rows and refuses a zero. *)
Definition sumNonZero (r : Z) (s : Z) : option error * Z :=
  if r =? 0 then (Some (OtherError "zero"), s) else (None, s + r).

End PostgresRows.

(** *** coordinatetest: the HasKeys and AttemptMatches checkers *)

Module Checkers.

Import Cborrpc.

(** What the two checkers read of a [coordinate.Attempt]: the names of
    its worker, of its work unit and of the work spec of that unit. *)
Record Attempt : Type := {
  Worker_Name : string;
  WorkUnit_Name : string;
  WorkSpec_Name : string
}.

(** A parameter handed to a checker, by dynamic type: the [nil]
    interface, a map with string keys, a [[]string], an attempt, or a
    value of another type that is no map. *)
Inductive object : Type :=
  | ONil
  | OMap (m : gmap string value)
  | OStrings (l : list string)
  | OAttempt (a : Attempt)
  | OOther.

(** The loop of [hasKeysChecker.Check] over the expected keys.
    [MapIndex] gives a valid value for every key of the map, whatever
    is stored under it. *)
Fixpoint missingKey (obtained : gmap string value) (expected : list string)
  : bool * string :=
  match expected with
  | [] => (true, ""%string)
  | key :: expected' =>
      match obtained !! key with
      | None => (false, ("missing key " ++ key)%string)
      | Some _ => missingKey obtained expected'
      end
  end.

(** [hasKeysChecker.Check].  [None] is the panic of [reflect] on the
    type of the [nil] interface. *)
Definition hasKeys_Check (params : list object) (names : list string)
  : option (bool * string) :=
  match params with
  | [p0; p1] =>
      match names with
      | [n0; _] =>
          match p0 with
          | ONil => None
          | OMap obtained =>
              match p1 with
              | OStrings expected => Some (missingKey obtained expected)
              | _ => Some (false,
                           "expected keys for HasKeys check not a []string"%string)
              end
          | _ => Some (false, (n0 ++ " value is not a map")%string)
          end
      | _ => Some (false, "incorrect number of names to HasKeys check"%string)
      end
  | _ => Some (false, "incorrect number of parameters to HasKeys check"%string)
  end.

(** [attemptMatchesChecker.Check] *)
Definition attemptMatches_Check (params : list object) (names : list string)
  : bool * string :=
  match params with
  | [p0; p1] =>
      match p0 with
      | OAttempt obtained =>
          match p1 with
          | OAttempt expected =>
              if negb (String.eqb (Worker_Name obtained) (Worker_Name expected))
              then (false, "mismatched workers"%string)
              else if negb (String.eqb (WorkUnit_Name obtained)
                                       (WorkUnit_Name expected))
              then (false, "mismatched work units"%string)
              else if negb (String.eqb (WorkSpec_Name obtained)
                                       (WorkSpec_Name expected))
              then (false, "mismatched work specs"%string)
              else (true, ""%string)
          | _ => (false, "non-Attempt expected value"%string)
          end
      | _ => (false, "non-Attempt obtained value"%string)
      end
  | _ => (false, "incorrect number of parameters to AttemptMatches check"%string)
  end.

End Checkers.

(** *** memory: the names of a namespace, and what the object graph keeps *)

Module MemoryGraph.

Import Cborrpc Memory.

Section Graph.

Context `{Objects}.

(** [namespace.Name] *)
Definition Name (ns : loc) (st : memState) : option string :=
  o ← nsHeap st !! ns;
  Some (name o).

(** [namespace.WorkSpecNames]: one name for each entry of
    [ns.workSpecs].  Go fixes no order for the walk over a map; the
    order of the list here is one of them and nothing relies on it. *)
Definition WorkSpecNames (ns : loc) (st : memState)
  : option ((list string * option error) * memState) :=
  o ← nsHeap st !! ns;
  Some (((map_to_list (workSpecs o)).*1, None), st).

(** The pointers to workers held by the namespaces are allocated. *)
Definition workers_allocated (st : memState) : Prop :=
  ∀ (ns : loc) (o : namespace) (n : string) (l : loc),
    nsHeap st !! ns = Some o → workers o !! n = Some l →
    is_Some (workerHeap st !! l).

(** No work spec is bound twice: a pointer is held under one name of one
    namespace at most. *)
Definition specs_unshared (st : memState) : Prop :=
  ∀ (ns1 ns2 : loc) (o1 o2 : namespace) (n1 n2 : string) (l : loc),
    nsHeap st !! ns1 = Some o1 → nsHeap st !! ns2 = Some o2 →
    workSpecs o1 !! n1 = Some l → workSpecs o2 !! n2 = Some l →
    ns1 = ns2 ∧ n1 = n2.

(** No worker is bound twice. *)
Definition workers_unshared (st : memState) : Prop :=
  ∀ (ns1 ns2 : loc) (o1 o2 : namespace) (n1 n2 : string) (l : loc),
    nsHeap st !! ns1 = Some o1 → nsHeap st !! ns2 = Some o2 →
    workers o1 !! n1 = Some l → workers o2 !! n2 = Some l →
    ns1 = ns2 ∧ n1 = n2.

(** The shape of the object graph that the operations keep. *)
Definition graph_ok (st : memState) : Prop :=
  wf st ∧ workers_allocated st ∧ specs_unshared st ∧ workers_unshared st.

End Graph.

End MemoryGraph.

(** * Properties *)

(** ** cborrpc: the tuple helpers *)

Section CborrpcFacts.

Import Cborrpc.

Lemma Detuplify_ok_iff (v : value) :
  (Detuplify v).2 = true ↔
  (∃ t, v = VTuple t) ∨ (∃ items, v = VSlice items).
Proof.
  split.
  - destruct v; simpl; try discriminate; eauto.
  - intros [[t ->] | [items ->]]; reflexivity.
Qed.

(** C9: [SloppyDetuplify] is a total function that gives the items of a
    [PythonTuple], a slice itself, and the one-element slice of any
    other value; it gives the slice of [Detuplify] on exactly the inputs
    where [Detuplify] reports success. *)
Theorem SloppyDetuplify_cases (v : value) :
  (∀ t, v = VTuple t → SloppyDetuplify v = Items t) ∧
  (∀ items, v = VSlice items → SloppyDetuplify v = items) ∧
  ((∀ t, v ≠ VTuple t) → (∀ items, v ≠ VSlice items) →
     SloppyDetuplify v = [v]) ∧
  ((Detuplify v).2 = true ↔ SloppyDetuplify v = (Detuplify v).1).
Proof.
  repeat split.
  - intros t ->. reflexivity.
  - intros items ->. reflexivity.
  - intros Ht Hs. destruct v; try reflexivity.
    + exfalso. eapply Hs. reflexivity.
    + exfalso. eapply Ht. reflexivity.
  - destruct v; simpl; try discriminate; reflexivity.
  - destruct v; simpl; try discriminate; reflexivity.
Qed.

End CborrpcFacts.

(** ** coordinatetest: the SameTime checker *)

Section CoordinatetestFacts.

Import Coordinatetest.

Lemma Sub_small (t u : Time) :
  - 1000 < Sub t u < 1000 ↔ - 1000 < t - u < 1000.
Proof.
  unfold Sub, minDuration, maxDuration.
  destruct (Z.ltb_spec (t - u) (- 2 ^ 63));
    [| destruct (Z.ltb_spec (2 ^ 63 - 1) (t - u))]; lia.
Qed.

Lemma Check_times (a b : Time) (names : list string) :
  (Check [PTime a; PTime b] names).1 = true ↔ Z.abs (a - b) < 1000.
Proof.
  cbn [Check fst]. change (1 * Microsecond) with 1000.
  rewrite andb_true_iff, Z.ltb_lt, Z.gtb_gt.
  pose proof (Sub_small a b). lia.
Qed.

(** C10: the checker accepts two times exactly when they are less than
    one microsecond (1000 ns) apart; it is symmetric, accepts equal
    times and rejects times one microsecond apart. *)
Theorem SameTime_Check_spec (a b : Time) (names : list string) :
  ((Check [PTime a; PTime b] names).1 = true ↔ Z.abs (a - b) < 1000) ∧
  Check [PTime a; PTime b] names = Check [PTime b; PTime a] names ∧
  Check [PTime a; PTime a] names = (true, ""%string) ∧
  Check [PTime (a + 1000); PTime a] names = (false, ""%string) ∧
  Check [PTime a; PTime (a + 1000)] names = (false, ""%string).
Proof.
  assert (Hbool : ∀ x y, (Check [PTime x; PTime y] names).1 = true ↔
                         Z.abs (x - y) < 1000) by (intros; apply Check_times).
  assert (Hsnd : ∀ x y, Check [PTime x; PTime y] names =
                        ((Check [PTime x; PTime y] names).1, ""%string))
    by reflexivity.
  assert (Hfalse : ∀ x y, 1000 ≤ Z.abs (x - y) →
                          (Check [PTime x; PTime y] names).1 = false).
  { intros x y Hxy. apply not_true_is_false. rewrite Hbool. lia. }
  split; [apply Hbool|]. split; [|split; [|split]].
  - rewrite (Hsnd a b), (Hsnd b a). f_equal.
    destruct ((Check [PTime b; PTime a] names).1) eqn:E.
    + apply Hbool. apply Hbool in E. lia.
    + apply not_true_is_false. rewrite Hbool. intros Hab.
      assert ((Check [PTime b; PTime a] names).1 = true) by (apply Hbool; lia).
      congruence.
  - rewrite Hsnd. f_equal. apply Hbool. lia.
  - rewrite Hsnd. f_equal. apply Hfalse. lia.
  - rewrite Hsnd. f_equal. apply Hfalse. lia.
Qed.

End CoordinatetestFacts.

(** ** postgres: the connection string *)

Section ConnectionString.

Import Postgres.

Context {World DB Tx Clock : Type}.

Lemma dataSourceName_prefix (s : string) :
  dataSourceName s =
  if String.prefix "//" s then ("postgres:" ++ s)%string else s.
Proof.
  destruct s as [|a [|b s]]; try reflexivity.
  - unfold dataSourceName. cbn [String.length String.prefix].
    change (2 <=? 1)%nat with false.
    destruct (ascii_dec "/" a); reflexivity.
  - unfold dataSourceName. cbn [String.length String.get String.prefix].
    change (2 <=? S (S (String.length s)))%nat with true.
    destruct (ascii_dec "/" a) as [<-|Ha].
    + destruct (ascii_dec "/" b) as [<-|Hb].
      * destruct s; reflexivity.
      * rewrite (bool_decide_eq_false_2 (Some b = Some "/"%char))
          by (intros [=]; congruence).
        reflexivity.
    + rewrite (bool_decide_eq_false_2 (Some a = Some "/"%char))
        by (intros [=]; congruence).
      reflexivity.
Qed.

(** C7: [NewWithClock] opens the database with ["postgres:" ++ s] when
    [s] begins with ["//"], and with [s] itself otherwise, as for the
    empty string and for ["/"]. *)
Theorem NewWithClock_connection_string
    (drv : Driver World DB Tx) (s : string) (clk : Clock) (w : World) :
  let passed :=
    if String.prefix "//" s then ("postgres:" ++ s)%string else s in
  head (NewWithClock drv s clk w).2 = Some (CallOpen "postgres" passed) ∧
  (NewWithClock drv s clk w).1.1 =
    (let '(r, w1) := sql_Open drv "postgres" passed w in
     match r with
     | inr e => (None, Some e)
     | inl d =>
         match (Upgrade drv d w1).1 with
         | Some e => (None, Some e)
         | None => (Some {| db := d; clock := clk |}, None)
         end
     end) ∧
  head (NewWithClock drv "" clk w).2 = Some (CallOpen "postgres" "") ∧
  head (NewWithClock drv "/" clk w).2 = Some (CallOpen "postgres" "/").
Proof.
  cbv zeta. rewrite <- dataSourceName_prefix.
  assert (Hhead : ∀ s', head (NewWithClock drv s' clk w).2 =
                        Some (CallOpen "postgres" (dataSourceName s'))).
  { intros s'. unfold NewWithClock.
    destruct (sql_Open drv "postgres" (dataSourceName s') w) as [[d|e] w1];
      [destruct (Upgrade drv d w1) as [[e|] w2]|]; reflexivity. }
  split; [apply Hhead|]. split; [|split; apply Hhead].
  unfold NewWithClock.
  destruct (sql_Open drv "postgres" (dataSourceName s) w) as [[d|e] w1];
    [destruct (Upgrade drv d w1) as [[e|] w2]|]; reflexivity.
Qed.

End ConnectionString.

(** ** postgres: withTx *)

Section WithTxFacts.

Import Postgres.

Context {World DB Tx : Type}.
Variable drv : Driver World DB Tx.
Variable f : Tx → World → option error * World.

(** X1: a first pass in which everything succeeds: the transaction is begun,
    set to repeatable read, handed to the closure and committed, once
    each, and nothing is rolled back. *)
Lemma withTx_commits_once (w w1 w2 w3 w4 : World) (t : Tx) (fuel : nat) :
  db_Begin drv w = (inl t, w1) →
  tx_Exec drv t isolation w1 = (None, w2) →
  f t w2 = (None, w3) →
  tx_Commit drv t w3 = (None, w4) →
  withTx drv f (S fuel) w =
    Some (None, w4, [CallBegin; CallExec t isolation; CallF t; CallCommit t]).
Proof.
  intros Hb He Hf Hc. unfold withTx, loop, attempt, enter. cbn.
  rewrite Hb, He, Hf, Hc. reflexivity.
Qed.

(** X2: a first pass in which the closure fails with an error that is no
    serialization failure: the transaction is rolled back and the error
    of the closure is returned as it is. *)
Lemma withTx_error_verbatim
    (w w1 w2 w3 w4 : World) (t : Tx) (e : error) (er : option error)
    (fuel : nat) :
  db_Begin drv w = (inl t, w1) →
  tx_Exec drv t isolation w1 = (None, w2) →
  f t w2 = (Some e, w3) →
  is_serialization_failure (Some e) = false →
  tx_Rollback drv t w3 = (er, w4) →
  withTx drv f (S fuel) w =
    Some (Some e, w4,
          [CallBegin; CallExec t isolation; CallF t; CallRollback t]).
Proof.
  intros Hb He Hf Hs Hr. unfold withTx, loop, attempt, enter. cbn.
  rewrite Hb, He, Hf. cbn -[is_serialization_failure]. rewrite Hs.
  cbn. unfold deferred. cbn. rewrite Hr. reflexivity.
Qed.

(** A pass in which the closure reports a serialization failure and the
    rollback succeeds: the loop goes round again with no transaction and
    no error. *)
Lemma attempt_retries_closure
    (fr : frame World Tx) (w1 w2 w3 w4 : World) (t : Tx) :
  db_Begin drv (world fr) = (inl t, w1) →
  tx_Exec drv t isolation w1 = (None, w2) →
  f t w2 = (Some (PqError "40001"), w3) →
  tx_Rollback drv t w3 = (None, w4) →
  attempt drv f fr =
    (Continue,
     {| tx := None; done := done fr; err := None; world := w4;
        log := log fr ++ [CallBegin; CallExec t isolation; CallF t;
                          CallRollback t] |}).
Proof.
  intros Hb He Hf Hr. unfold attempt. rewrite Hb, He, Hf. cbn.
  rewrite Hr. rewrite <- !app_assoc. reflexivity.
Qed.

(** X20: a first pass in which the commit reports a serialization failure
    and the rollback that follows reports an error: [withTx] returns the
    error of the rollback, and the closure is not run again. *)
Lemma withTx_commit_conflict_rollback_fails
    (w w1 w2 w3 w4 w5 : World) (t : Tx) (e : error) (fuel : nat) :
  db_Begin drv w = (inl t, w1) →
  tx_Exec drv t isolation w1 = (None, w2) →
  f t w2 = (None, w3) →
  tx_Commit drv t w3 = (Some (PqError "40001"), w4) →
  tx_Rollback drv t w4 = (Some e, w5) →
  withTx drv f (S fuel) w =
    Some (Some e, w5,
          [CallBegin; CallExec t isolation; CallF t; CallCommit t;
           CallRollback t]).
Proof.
  intros Hb He Hf Hc Hr. unfold withTx, loop, attempt, enter. cbn.
  rewrite Hb, He, Hf, Hc. cbn. rewrite Hr. reflexivity.
Qed.

End WithTxFacts.

Section WithTxRuns.

Import Postgres.

Lemma callsOfF_app {Tx : Type} (l1 l2 : list (call Tx)) :
  callsOfF (l1 ++ l2) = (callsOfF l1 + callsOfF l2)%nat.
Proof.
  induction l1 as [|c l1 IH]; [reflexivity|].
  destruct c; cbn; rewrite IH; reflexivity.
Qed.

Lemma loop_conflictsFirst (n k : nat) (fr : frame nat nat) :
  (world fr + k = n)%nat →
  loop agreeable (conflictsFirst n) k fr = None ∧
  ∃ fr', loop agreeable (conflictsFirst n) (S k) fr = Some fr' ∧
         tx fr' = Some n ∧ done fr' = true ∧ err fr' = None ∧
         world fr' = S n ∧
         callsOfF (log fr') = (callsOfF (log fr) + S k)%nat.
Proof.
  revert fr. induction k as [|k IH]; intros fr Hw.
  - split; [reflexivity|].
    cbn [loop]. unfold attempt, conflictsFirst. cbn -[Nat.ltb].
    assert (Hlt : (world fr <? n)%nat = false) by (apply Nat.ltb_ge; lia).
    rewrite Hlt. cbn. eexists. split; [reflexivity|]. cbn.
    rewrite !callsOfF_app. cbn. repeat split; try (f_equal; lia); lia.
  - assert (Hlt : (world fr <? n)%nat = true) by (apply Nat.ltb_lt; lia).
    set (fr1 := {| tx := None; done := done fr; err := None;
                   world := S (world fr);
                   log := (((log fr ++ [CallBegin])
                              ++ [CallExec (world fr) isolation])
                             ++ [CallF (world fr)])
                            ++ [CallRollback (world fr)] |}).
    assert (Hstep : attempt agreeable (conflictsFirst n) fr = (Continue, fr1)).
    { unfold attempt, conflictsFirst. cbn -[Nat.ltb]. rewrite Hlt. reflexivity. }
    destruct (IH fr1) as [Hnone (fr' & Hsome & Htx & Hdone & Herr & Hw' & Hcalls)].
    { cbn. lia. }
    split.
    + cbn [loop]. rewrite Hstep. exact Hnone.
    + exists fr'. split.
      * change (loop agreeable (conflictsFirst n) (S (S k)) fr)
          with (match attempt agreeable (conflictsFirst n) fr with
                | (Continue, fr0) => loop agreeable (conflictsFirst n) (S k) fr0
                | (Leave, fr0) => Some fr0
                end).
        rewrite Hstep. exact Hsome.
      * repeat split; try assumption. rewrite Hcalls. unfold fr1. cbn.
        rewrite !callsOfF_app. cbn. lia.
Qed.

(** X3: the number of retries has no bound: against a closure that reports a
    serialization failure [n] times, [withTx] does not return within [n]
    passes, and returns without error on pass [n + 1], having called the
    closure [n + 1] times. *)
Lemma withTx_retries_unbounded (n : nat) :
  withTx agreeable (conflictsFirst n) n 0%nat = None ∧
  ∃ l, withTx agreeable (conflictsFirst n) (S n) 0%nat = Some (None, S n, l) ∧
       callsOfF l = S n.
Proof.
  destruct (loop_conflictsFirst n n (enter 0%nat))
    as [Hnone (fr' & Hsome & Htx & Hdone & Herr & Hw & Hcalls)];
    [reflexivity|].
  unfold withTx. split.
  - rewrite Hnone. reflexivity.
  - rewrite Hsome. cbn [mbind option_bind]. unfold deferred.
    rewrite Htx, Hdone. cbn. rewrite Herr, Hw. eexists. split; [reflexivity|].
    rewrite Hcalls. reflexivity.
Qed.

(** C2: the closure succeeds and the commit reports a serialization
    failure.  [withTx] then calls [Rollback] on the transaction it has
    just tried to commit, which [database/sql] refuses; [withTx] returns
    that refusal and stops.  The closure was run once and is not run
    again, however many passes the loop is allowed. *)
Theorem withTx_commit_conflict_not_retried (fuel : nat) :
  withTx conflictingCommits alwaysSucceeds (S fuel)
    {| begun := 0; finished := [] |} =
    Some (Some ErrTxDone, {| begun := 1; finished := [0%nat] |},
          [CallBegin; CallExec 0%nat isolation; CallF 0%nat;
           CallCommit 0%nat; CallRollback 0%nat]).
Proof.
  unfold withTx. cbn [loop]. unfold attempt, enter. cbn [world log].
  vm_compute. reflexivity.
Qed.

End WithTxRuns.

(** ** memory: the namespace *)

Section NamespaceFacts.

Import Cborrpc Memory.

Context `{Objects}.

Implicit Types (st : memState) (ns l : loc) (o : namespace) (n : string).

(** C4: [WorkSpec] and [DestroyWorkSpec] report [ErrNoSuchWorkSpec] for
    exactly the names bound to no work spec of the namespace; for a name
    that is bound, whatever the spec holds, [DestroyWorkSpec] returns no
    error and unbinds that name, and changes nothing else. *)
Theorem WorkSpec_DestroyWorkSpec_spec st ns o n :
  nsHeap st !! ns = Some o →
  (WorkSpec ns n st = Some ((None, Some (ErrNoSuchWorkSpec n)), st)
     ↔ workSpecs o !! n = None) ∧
  (∀ l, workSpecs o !! n = Some l →
        WorkSpec ns n st = Some ((Some l, None), st)) ∧
  (DestroyWorkSpec ns n st = Some (Some (ErrNoSuchWorkSpec n), st)
     ↔ workSpecs o !! n = None) ∧
  (∀ l, workSpecs o !! n = Some l →
     ∃ st' o',
       DestroyWorkSpec ns n st = Some (None, st') ∧
       nsHeap st' !! ns = Some o' ∧
       workSpecs o' !! n = None ∧
       (∀ n', n' ≠ n → workSpecs o' !! n' = workSpecs o !! n') ∧
       name o' = name o ∧ workers o' = workers o ∧
       (∀ ns', ns' ≠ ns → nsHeap st' !! ns' = nsHeap st !! ns') ∧
       namespaces st' = namespaces st ∧
       specHeap st' = specHeap st ∧
       workerHeap st' = workerHeap st).
Proof.
  intros Hns. unfold WorkSpec, DestroyWorkSpec. rewrite Hns. cbn.
  repeat split.
  - destruct (workSpecs o !! n); [discriminate | reflexivity].
  - intros ->. reflexivity.
  - intros l ->. reflexivity.
  - destruct (workSpecs o !! n); [discriminate | reflexivity].
  - intros ->. reflexivity.
  - intros l ->.
    eexists _, _. split; [reflexivity|]. cbn.
    split; [apply lookup_insert_eq|]. cbn.
    split; [apply lookup_delete_eq|].
    split; [intros n' Hn'; apply lookup_delete_ne; congruence|].
    split; [reflexivity|]. split; [reflexivity|].
    split; [intros ns' Hns'; apply lookup_insert_ne; congruence|].
    repeat split.
Qed.

(** C5: [Worker] returns no error; it returns the worker bound to the
    name, or binds the name to a newly allocated worker; a second call
    returns the same pointer and changes nothing, and [Workers] then
    maps the name to that pointer. *)
Theorem Worker_spec st ns o n :
  nsHeap st !! ns = Some o →
  ∃ l st',
    Worker ns n st = Some ((l, None), st') ∧
    (∀ l0, workers o !! n = Some l0 → l = l0 ∧ st' = st) ∧
    (workers o !! n = None →
       workerHeap st !! l = None ∧
       workerHeap st' !! l = Some (newWorker ns n) ∧
       nsHeap st' !! ns = Some (set_workers (<[n := l]> (workers o)) o)) ∧
    Worker ns n st' = Some ((l, None), st') ∧
    ∃ m, Workers ns st' = Some ((m, None), st') ∧ m !! n = Some l.
Proof.
  intros Hns. unfold Worker at 1. rewrite Hns. cbn.
  destruct (workers o !! n) as [l0|] eqn:Hw.
  - exists l0, st. split; [reflexivity|].
    split; [intros ? [= <-]; done|]. split; [discriminate|].
    unfold Worker, Workers. rewrite Hns. cbn. rewrite Hw.
    split; [reflexivity|]. eexists. split; [reflexivity | exact Hw].
  - eexists _, _. split; [reflexivity|].
    split; [discriminate|].
    split.
    { intros _. cbn. split; [|split].
      - apply not_elem_of_dom, is_fresh.
      - apply lookup_insert_eq.
      - apply lookup_insert_eq. }
    unfold Worker, Workers. cbn. rewrite !lookup_insert_eq. cbn.
    rewrite !lookup_insert_eq. split; [reflexivity|].
    eexists. split; [reflexivity | apply lookup_insert_eq].
Qed.

(** C6: [Destroy] returns no error and removes the entry of the
    coordinator under the name of the namespace; every other entry and
    every object, the namespace itself included, is as before, so the
    operations through the handle give what they gave before. *)
Theorem Destroy_spec st ns o :
  nsHeap st !! ns = Some o →
  ∃ st',
    Destroy ns st = Some (None, st') ∧
    namespaces st' = delete (name o) (namespaces st) ∧
    namespaces st' !! name o = None ∧
    (∀ n', n' ≠ name o → namespaces st' !! n' = namespaces st !! n') ∧
    nsHeap st' = nsHeap st ∧
    specHeap st' = specHeap st ∧
    workerHeap st' = workerHeap st ∧
    nsHeap st' !! ns = Some o ∧
    (∀ n, fst <$> WorkSpec ns n st' = fst <$> WorkSpec ns n st) ∧
    (∀ n, fst <$> Worker ns n st' = fst <$> Worker ns n st) ∧
    (fst <$> Workers ns st' = fst <$> Workers ns st) ∧
    (∀ d, fst <$> SetWorkSpec ns d st' = fst <$> SetWorkSpec ns d st).
Proof.
  intros Hns. unfold Destroy. rewrite Hns. cbn.
  eexists. split; [reflexivity|]. cbn.
  split; [reflexivity|].
  split; [apply lookup_delete_eq|].
  split; [intros n' Hn'; apply lookup_delete_ne; congruence|].
  do 3 (split; [reflexivity|]). split; [exact Hns|].
  split; [|split; [|split]].
  - intros n. unfold WorkSpec. cbn. rewrite Hns. cbn.
    destruct (workSpecs o !! n); reflexivity.
  - intros n. unfold Worker. cbn. rewrite Hns. cbn.
    destruct (workers o !! n); reflexivity.
  - unfold Workers. cbn. rewrite Hns. reflexivity.
  - intros d. unfold SetWorkSpec. cbn. rewrite Hns. cbn.
    destruct (default VNil (d !! "name"%string)); try reflexivity.
    destruct (workSpecs o !! s) as [l|]; cbn.
    + destruct (specHeap st !! l) as [s0|]; [|reflexivity]. cbn.
      destruct (setData s0 d) as [s' [e|]]; reflexivity.
    + rewrite !lookup_insert_eq. cbn.
      destruct (setData (newWorkSpec ns s) d) as [s' [e|]]; reflexivity.
Qed.

(** [SetWorkSpec] returns for every allocated handle of a well-formed
    state. *)
Lemma SetWorkSpec_total st ns o d :
  nsHeap st !! ns = Some o → wf st → is_Some (SetWorkSpec ns d st).
Proof.
  intros Hns Hwf. unfold SetWorkSpec. rewrite Hns. cbn.
  destruct (default VNil (d !! "name"%string)); try (eexists; reflexivity).
  destruct (workSpecs o !! s) as [l|] eqn:Hl; cbn.
  - destruct (Hwf ns o s l Hns Hl) as [s0 ->]. cbn.
    destruct (setData s0 d) as [s' [e|]]; eexists; reflexivity.
  - rewrite lookup_insert_eq. cbn.
    destruct (setData (newWorkSpec ns s) d) as [s' [e|]]; eexists; reflexivity.
Qed.

(** X19: a name that is bound to no work spec is bound to a new one before
    [setData] sees the data: the binding is there whether [setData]
    accepts the data or not. *)
Lemma SetWorkSpec_binds_before_setData st ns o d n :
  nsHeap st !! ns = Some o →
  d !! "name"%string = Some (VString n) →
  workSpecs o !! n = None →
  ∃ r st' o',
    SetWorkSpec ns d st = Some (r, st') ∧
    r.2 = (setData (newWorkSpec ns n) d).2 ∧
    nsHeap st' !! ns = Some o' ∧
    workSpecs o' !! n = Some (fresh (dom (specHeap st))).
Proof.
  intros Hns Hd Hn. unfold SetWorkSpec. rewrite Hns, Hd. cbn. rewrite Hn.
  cbn. rewrite lookup_insert_eq. cbn.
  destruct (setData (newWorkSpec ns n) d) as [s' [e|]]; cbn;
    eexists _, _, _; (split; [reflexivity|]); cbn;
    (split; [reflexivity|]); (split; [apply lookup_insert_eq|]);
    cbn; apply lookup_insert_eq.
Qed.

(** C1 (amended): [SetWorkSpec] returns [ErrNoWorkSpecName] when the data
    has no ["name"] or has [nil] under it, and [ErrBadWorkSpecName] when
    the value under ["name"] is neither [nil] nor a string, and leaves
    the state as it was in both cases.  For a string, the empty one
    included, it fails exactly when [setData] fails on the work spec of
    that name (the one bound to it, or else a new one), and returns the
    error of [setData]. *)
Theorem SetWorkSpec_name_check st ns o d :
  nsHeap st !! ns = Some o → wf st →
  (d !! "name"%string = None ∨ d !! "name"%string = Some VNil →
     SetWorkSpec ns d st = Some ((None, Some ErrNoWorkSpecName), st)) ∧
  (∀ v, d !! "name"%string = Some v → v ≠ VNil → (∀ s, v ≠ VString s) →
     SetWorkSpec ns d st = Some ((None, Some ErrBadWorkSpecName), st)) ∧
  (∀ n, d !! "name"%string = Some (VString n) →
     ∃ l s st',
       (workSpecs o !! n = Some l ∧ specHeap st !! l = Some s
        ∨ workSpecs o !! n = None ∧ l = fresh (dom (specHeap st))
          ∧ s = newWorkSpec ns n) ∧
       SetWorkSpec ns d st =
         Some (match (setData s d).2 with
               | Some e => (None, Some e)
               | None => (Some l, None)
               end, st')).
Proof.
  intros Hns Hwf. unfold SetWorkSpec. rewrite Hns. cbn.
  split; [|split].
  - intros [-> | ->]; reflexivity.
  - intros v -> Hnil Hstr. cbn. destruct v; try reflexivity.
    + congruence.
    + exfalso. eapply Hstr. reflexivity.
  - intros n ->. cbn.
    destruct (workSpecs o !! n) as [l|] eqn:Hl; cbn.
    + destruct (Hwf ns o n l Hns Hl) as [s0 Hs0]. rewrite Hs0. cbn.
      exists l, s0. destruct (setData s0 d) as [s' [e|]]; cbn;
        eexists; (split; [left; done | reflexivity]).
    + rewrite lookup_insert_eq. cbn.
      eexists _, (newWorkSpec ns n).
      destruct (setData (newWorkSpec ns n) d) as [s' [e|]]; cbn;
        eexists; (split; [right; done | reflexivity]).
Qed.

(** C3: after a successful [SetWorkSpec] of data named [n], [WorkSpec n]
    succeeds and returns the same pointer, and the spec it points to
    holds the data; when [n] was bound before, the pointer is the one it
    was bound to, no object is allocated, the object is the result of
    [setData] on the old one, and its work units are those of the old
    one.  What [setData] does on success is taken from the spec. *)
Theorem SetWorkSpec_WorkSpec_roundtrip st st' ns o d n l :
  nsHeap st !! ns = Some o → wf st →
  (∀ s d' s', setData s d' = (s', None) →
     workSpec_data s' = d' ∧ workSpec_workUnits s' = workSpec_workUnits s) →
  d !! "name"%string = Some (VString n) →
  SetWorkSpec ns d st = Some ((Some l, None), st') →
  WorkSpec ns n st' = Some ((Some l, None), st') ∧
  (∃ s', specHeap st' !! l = Some s' ∧ workSpec_data s' = d) ∧
  (∀ l0 s0, workSpecs o !! n = Some l0 → specHeap st !! l0 = Some s0 →
     l = l0 ∧
     specHeap st' !! l = Some (setData s0 d).1 ∧
     workSpec_workUnits (setData s0 d).1 = workSpec_workUnits s0 ∧
     dom (specHeap st') = dom (specHeap st) ∧
     nsHeap st' = nsHeap st).
Proof.
  intros Hns Hwf Hset Hd. unfold SetWorkSpec. rewrite Hns, Hd. cbn.
  destruct (workSpecs o !! n) as [l0|] eqn:Hl; cbn.
  - destruct (Hwf ns o n l0 Hns Hl) as [s0 Hs0]. rewrite Hs0. cbn.
    destruct (setData s0 d) as [s' [e|]] eqn:Hsd; [discriminate|].
    intros [= <- <-]. destruct (Hset _ _ _ Hsd) as [Hdata Hunits].
    split; [|split].
    + unfold WorkSpec. cbn. rewrite Hns. cbn. rewrite Hl. reflexivity.
    + exists s'. cbn. split; [apply lookup_insert_eq | exact Hdata].
    + intros l1 s1 [= <-] Hs1. rewrite Hs0 in Hs1. injection Hs1 as <-.
      rewrite Hsd. cbn. split; [reflexivity|].
      split; [apply lookup_insert_eq|]. split; [exact Hunits|].
      split; [|reflexivity].
      apply dom_insert_lookup_L. rewrite Hs0. eauto.
  - rewrite lookup_insert_eq. cbn.
    destruct (setData (newWorkSpec ns n) d) as [s' [e|]] eqn:Hsd;
      [discriminate|].
    intros [= <- <-]. destruct (Hset _ _ _ Hsd) as [Hdata Hunits].
    split; [|split].
    + unfold WorkSpec. cbn. rewrite lookup_insert_eq. cbn.
      rewrite lookup_insert_eq. reflexivity.
    + exists s'. cbn. split; [apply lookup_insert_eq | exact Hdata].
    + intros l1 s1 [=].
Qed.

End NamespaceFacts.

(** ** memory: the namespace at work *)

Section NamespaceRuns.

Import Cborrpc Memory.

Lemma wf_emptyState : wf emptyState.
Proof.
  intros ns o n l Hns Hl. cbn in Hns.
  apply lookup_singleton_Some in Hns as [_ <-]. cbn in Hl.
  rewrite lookup_empty in Hl. discriminate.
Qed.

Lemma wf_busyState : wf busyState.
Proof.
  intros ns o n l Hns Hl. cbn in Hns.
  apply lookup_singleton_Some in Hns as [_ <-]. cbn in Hl.
  apply lookup_singleton_Some in Hl as [_ <-]. cbn.
  rewrite lookup_singleton_eq. eauto.
Qed.

(** The instance of [setData] keeps the contract that the spec gives. *)
Lemma spec_setData_contract (s : specObject) (d : gmap string value)
    (s' : specObject) :
  spec_setData s d = (s', None) →
  so_data s' = d ∧ so_workUnits s' = so_workUnits s.
Proof.
  unfold spec_setData.
  destruct (d !! "weight"%string) as [[]|]; try discriminate.
  - destruct (0 <? n); [|discriminate]. intros [= <-]. done.
  - intros [= <-]. done.
Qed.

(** C1: data with [nil] under ["name"] are refused with
    [ErrNoWorkSpecName] although the key is there, and data with the
    empty string under ["name"] are accepted: a work spec named by the
    empty string is made. *)
Lemma SetWorkSpec_name_counterexample :
  @SetWorkSpec specObjects 1%positive {[ "name"%string := VNil ]} emptyState
    = Some ((None, Some ErrNoWorkSpecName), emptyState) ∧
  @SetWorkSpec specObjects 1%positive {[ "name"%string := VString "" ]}
    emptyState
    = Some ((Some 1%positive, None),
            {| namespaces := {[ ""%string := 1%positive ]};
               nsHeap := {[ 1%positive :=
                 {| name := "";
                    workSpecs := {[ ""%string := 1%positive ]};
                    workers := ∅ |} ]};
               specHeap := {[ 1%positive :=
                 {| so_name := "";
                    so_data := {[ "name"%string := VString "" ]};
                    so_priority := 0; so_weight := 20;
                    so_workUnits := ∅ |} ]};
               workerHeap := ∅ |}).
Proof. split; vm_compute; reflexivity. Qed.

(** The amended C1 at [busyState]: the name ["s1"] of [sampleData] is
    bound to location 1, and [SetWorkSpec] succeeds as [setData] does on
    the spec stored there. *)
Lemma SetWorkSpec_name_check_witness :
  nsHeap busyState !! 1%positive = Some busyNamespace ∧
  wf busyState ∧
  sampleData !! "name"%string = Some (VString "s1") ∧
  ∃ l s st',
    (workSpecs busyNamespace !! "s1"%string = Some l ∧
     specHeap busyState !! l = Some s
     ∨ workSpecs busyNamespace !! "s1"%string = None ∧
       l = fresh (dom (specHeap busyState)) ∧
       s = spec_newWorkSpec 1%positive "s1") ∧
    SetWorkSpec 1%positive sampleData busyState =
      Some (match (spec_setData s sampleData).2 with
            | Some e => (None, Some e)
            | None => (Some l, None)
            end, st').
Proof.
  split; [reflexivity|]. split; [exact wf_busyState|].
  split; [reflexivity|].
  destruct (SetWorkSpec_name_check (H := specObjects) busyState 1%positive
              busyNamespace sampleData eq_refl wf_busyState)
    as (_ & _ & Hstr).
  exact (Hstr "s1"%string eq_refl).
Defined.

(** Data that [setData] refuses, under a name that was not bound: the
    error of [setData] is returned, and the name is bound all the same to
    the work spec made for it. *)
Lemma SetWorkSpec_refused_data_binds_name :
  @SetWorkSpec specObjects 1%positive
    {[ "name"%string := VString "s2"; "weight"%string := VInt (-1) ]}
    emptyState
  = Some ((None, Some (ErrOther "weight")),
          {| namespaces := {[ ""%string := 1%positive ]};
             nsHeap := {[ 1%positive :=
               {| name := "";
                  workSpecs := {[ "s2"%string := 1%positive ]};
                  workers := ∅ |} ]};
             specHeap := {[ 1%positive := spec_newWorkSpec 1%positive "s2" ]};
             workerHeap := ∅ |}).
Proof. vm_compute. reflexivity. Qed.

(** C3 at [busyState]: setting [sampleData] keeps the spec at location 1,
    gives it the data, and keeps its work unit ["u1"]. *)
Lemma SetWorkSpec_WorkSpec_roundtrip_witness :
  (nsHeap busyState !! 1%positive = Some busyNamespace ∧
   wf busyState ∧
   sampleData !! "name"%string = Some (VString "s1") ∧
   SetWorkSpec 1%positive sampleData busyState
     = Some ((Some 1%positive, None), updatedState)) ∧
  WorkSpec 1%positive "s1" updatedState
    = Some ((Some 1%positive, None), updatedState) ∧
  ∃ s', specHeap updatedState !! 1%positive = Some s' ∧
        so_data s' = sampleData.
Proof.
  split; [repeat split; exact wf_busyState|].
  destruct (SetWorkSpec_WorkSpec_roundtrip (H := specObjects)
              busyState updatedState 1%positive busyNamespace sampleData
              "s1"%string 1%positive eq_refl wf_busyState
              spec_setData_contract eq_refl eq_refl)
    as (Hget & Hdata & _).
  split; [exact Hget | exact Hdata].
Defined.

(** C4 at [busyState]: destroying ["s1"], which has a work unit, returns
    no error and leaves the heap of work specs as it was. *)
Lemma WorkSpec_DestroyWorkSpec_witness :
  nsHeap busyState !! 1%positive = Some busyNamespace ∧
  workSpecs busyNamespace !! "s1"%string = Some 1%positive ∧
  ∃ st' o',
    DestroyWorkSpec 1%positive "s1" busyState = Some (None, st') ∧
    nsHeap st' !! 1%positive = Some o' ∧
    workSpecs o' !! "s1"%string = None ∧
    specHeap st' = specHeap busyState.
Proof.
  split; [reflexivity|]. split; [reflexivity|].
  destruct (WorkSpec_DestroyWorkSpec_spec (H := specObjects) busyState
              1%positive busyNamespace "s1"%string eq_refl)
    as (_ & _ & _ & Hdestroy).
  destruct (Hdestroy 1%positive eq_refl)
    as (st' & o' & Hrun & Hns & Hgone & _ & _ & _ & _ & _ & Hspecs & _).
  exists st', o'. auto.
Defined.

(** C5 at [emptyState]: the worker ["w"] is made by the first call and
    returned by the second. *)
Lemma Worker_witness :
  nsHeap emptyState !! 1%positive = Some (newNamespace "") ∧
  ∃ l st',
    Worker 1%positive "w" emptyState = Some ((l, None), st') ∧
    Worker 1%positive "w" st' = Some ((l, None), st') ∧
    ∃ m, Workers 1%positive st' = Some ((m, None), st') ∧
         m !! "w"%string = Some l.
Proof.
  split; [reflexivity|].
  destruct (Worker_spec (H := specObjects) emptyState 1%positive
              (newNamespace "") "w"%string eq_refl)
    as (l & st' & Hfirst & _ & _ & Hsecond & Hall).
  exists l, st'. auto.
Defined.

(** C6 at [emptyState]: destroying the default namespace empties the
    map of the coordinator and keeps the namespace object. *)
Lemma Destroy_witness :
  nsHeap emptyState !! 1%positive = Some (newNamespace "") ∧
  ∃ st',
    Destroy 1%positive emptyState = Some (None, st') ∧
    namespaces st' = delete ""%string (namespaces emptyState) ∧
    nsHeap st' !! 1%positive = Some (newNamespace "").
Proof.
  split; [reflexivity|].
  destruct (Destroy_spec (H := specObjects) emptyState 1%positive
              (newNamespace "") eq_refl)
    as (st' & Hrun & Hmap & _ & _ & _ & _ & _ & Hobj & _).
  exists st'. auto.
Defined.

End NamespaceRuns.

(** * Further properties *)

(** ** postgres: how withTx ends *)

Section WithTxEnds.

Import Postgres.

Context {World DB Tx : Type}.
Variable drv : Driver World DB Tx.
Variable f : Tx → World → option error * World.

(** X4: when no transaction can be begun, [withTx] returns the error of
    [Begin] and calls nothing else: the closure is not run and nothing
    is rolled back. *)
Lemma withTx_begin_fails (w w1 : World) (e : error) (fuel : nat) :
  db_Begin drv w = (inr e, w1) →
  withTx drv f (S fuel) w = Some (Some e, w1, [CallBegin]).
Proof.
  intros Hb. unfold withTx, loop, attempt, enter. cbn. rewrite Hb.
  reflexivity.
Qed.

(** X5: when the isolation level cannot be set, [withTx] returns that
    error without running the closure, and rolls the transaction back;
    the result of the rollback is dropped. *)
Lemma withTx_isolation_fails
    (w w1 w2 w3 : World) (t : Tx) (e : error) (er : option error)
    (fuel : nat) :
  db_Begin drv w = (inl t, w1) →
  tx_Exec drv t isolation w1 = (Some e, w2) →
  tx_Rollback drv t w2 = (er, w3) →
  withTx drv f (S fuel) w =
    Some (Some e, w3, [CallBegin; CallExec t isolation; CallRollback t]).
Proof.
  intros Hb He Hr. unfold withTx, loop, attempt, enter. cbn.
  rewrite Hb, He. cbn. unfold deferred. cbn. rewrite Hr. reflexivity.
Qed.

(** X6: when the commit fails with an error that is no serialization
    failure, [withTx] returns that error and does not roll back. *)
Lemma withTx_commit_fails
    (w w1 w2 w3 w4 : World) (t : Tx) (e : error) (fuel : nat) :
  db_Begin drv w = (inl t, w1) →
  tx_Exec drv t isolation w1 = (None, w2) →
  f t w2 = (None, w3) →
  tx_Commit drv t w3 = (Some e, w4) →
  is_serialization_failure (Some e) = false →
  withTx drv f (S fuel) w =
    Some (Some e, w4,
          [CallBegin; CallExec t isolation; CallF t; CallCommit t]).
Proof.
  intros Hb He Hf Hc Hs. unfold withTx, loop, attempt, enter. cbn.
  rewrite Hb, He, Hf, Hc. cbn -[is_serialization_failure]. rewrite Hs.
  reflexivity.
Qed.

(** A pass that leaves the loop without an error has just committed. *)
Lemma attempt_leaves_without_error (fr fr' : frame World Tx) :
  attempt drv f fr = (Leave, fr') →
  err (deferred drv fr') = None →
  ∃ t l, deferred drv fr' = fr' ∧ tx fr' = Some t ∧ done fr' = true ∧
         log fr' = l ++ [CallCommit t].
Proof.
  unfold attempt.
  destruct (db_Begin drv (world fr)) as [[t|e] w1].
  2:{ intros [= <-]. cbn. discriminate. }
  destruct (tx_Exec drv t isolation w1) as [[e|] w2].
  { intros [= <-]. unfold deferred. cbn.
    destruct (negb (done fr)); [|discriminate].
    destruct (tx_Rollback drv t w2). cbn. discriminate. }
  destruct (f t w2) as [[e|] w3].
  - destruct (is_serialization_failure (Some e)).
    + destruct (tx_Rollback drv t w3) as [[e'|] w4]; [|discriminate].
      intros [= <-]. unfold deferred. cbn.
      destruct (negb (done fr)); [|discriminate].
      destruct (tx_Rollback drv t w4). cbn. discriminate.
    + intros [= <-]. unfold deferred. cbn.
      destruct (negb (done fr)); [|discriminate].
      destruct (tx_Rollback drv t w3). cbn. discriminate.
  - destruct (tx_Commit drv t w3) as [ec w4].
    destruct (is_serialization_failure ec).
    + destruct (tx_Rollback drv t w4) as [[e'|] w5]; [|discriminate].
      intros [= <-]. unfold deferred. cbn. discriminate.
    + intros [= <-]. unfold deferred. cbn. intros ->.
      eexists t, _. repeat split.
Qed.

Lemma loop_leaves_without_error (fuel : nat) (fr fr' : frame World Tx) :
  loop drv f fuel fr = Some fr' →
  err (deferred drv fr') = None →
  ∃ t l, deferred drv fr' = fr' ∧ tx fr' = Some t ∧ done fr' = true ∧
         log fr' = l ++ [CallCommit t].
Proof.
  revert fr. induction fuel as [|fuel IH]; intros fr; [discriminate|].
  cbn [loop]. destruct (attempt drv f fr) as [[] fr1] eqn:Hstep.
  - apply IH.
  - intros [= <-]. eapply attempt_leaves_without_error. exact Hstep.
Qed.

(** X7: whenever [withTx] returns no error, the last call it made is a
    commit: nothing follows the commit, and no run without a commit
    ends without an error. *)
Theorem withTx_success_ends_in_commit
    (fuel : nat) (w w' : World) (l : list (call Tx)) :
  withTx drv f fuel w = Some (None, w', l) →
  ∃ t l', l = l' ++ [CallCommit t].
Proof.
  unfold withTx. destruct (loop drv f fuel (enter w)) as [fr|] eqn:Hloop;
    [|discriminate].
  cbn. intros [= Herr Hw Hl].
  destruct (loop_leaves_without_error _ _ _ Hloop Herr)
    as (t & l' & Hdef & _ & _ & Hlog).
  exists t, l'. rewrite <- Hl, Hdef. exact Hlog.
Qed.

End WithTxEnds.

Section WithTxEndsRuns.

Import Postgres PostgresRows.

Lemma withTx_commits_once_witness :
  (db_Begin agreeable 0%nat = (inl 0%nat, 0%nat) ∧
   tx_Exec agreeable 0%nat isolation 0%nat = (None, 0%nat) ∧
   succeeds 0%nat 0%nat = (None, 1%nat) ∧
   tx_Commit agreeable 0%nat 1%nat = (None, 1%nat)) ∧
  withTx agreeable succeeds 1 0%nat =
    Some (None, 1%nat,
          [CallBegin; CallExec 0%nat isolation; CallF 0%nat;
           CallCommit 0%nat]).
Proof.
  split; [repeat split|].
  apply (withTx_commits_once agreeable succeeds 0%nat 0%nat 0%nat 1%nat
           1%nat 0%nat 0%nat); reflexivity.
Defined.

Lemma withTx_error_verbatim_witness :
  (db_Begin agreeable 0%nat = (inl 0%nat, 0%nat) ∧
   tx_Exec agreeable 0%nat isolation 0%nat = (None, 0%nat) ∧
   fails 0%nat 0%nat = (Some (OtherError "boom"), 1%nat) ∧
   is_serialization_failure (Some (OtherError "boom")) = false ∧
   tx_Rollback agreeable 0%nat 1%nat = (None, 1%nat)) ∧
  withTx agreeable fails 1 0%nat =
    Some (Some (OtherError "boom"), 1%nat,
          [CallBegin; CallExec 0%nat isolation; CallF 0%nat;
           CallRollback 0%nat]).
Proof.
  split; [repeat split|].
  apply (withTx_error_verbatim agreeable fails 0%nat 0%nat 0%nat 1%nat
           1%nat 0%nat (OtherError "boom") None 0%nat); reflexivity.
Defined.

Lemma withTx_commit_conflict_rollback_fails_witness :
  (db_Begin strictTx 0%nat = (inl 0%nat, 0%nat) ∧
   tx_Exec strictTx 0%nat isolation 0%nat = (None, 0%nat) ∧
   succeeds 0%nat 0%nat = (None, 1%nat) ∧
   tx_Commit strictTx 0%nat 1%nat = (Some (PqError "40001"), 1%nat) ∧
   tx_Rollback strictTx 0%nat 1%nat
     = (Some (OtherError "transaction is done"), 1%nat)) ∧
  withTx strictTx succeeds 5 0%nat =
    Some (Some (OtherError "transaction is done"), 1%nat,
          [CallBegin; CallExec 0%nat isolation; CallF 0%nat;
           CallCommit 0%nat; CallRollback 0%nat]).
Proof.
  split; [repeat split|].
  apply (withTx_commit_conflict_rollback_fails strictTx succeeds 0%nat
           0%nat 0%nat 1%nat 1%nat 1%nat 0%nat
           (OtherError "transaction is done") 4%nat); reflexivity.
Defined.

Lemma withTx_begin_fails_witness :
  db_Begin unreachable 0%nat = (inr (OtherError "down"), 0%nat) ∧
  withTx unreachable succeeds 1 0%nat =
    Some (Some (OtherError "down"), 0%nat, [CallBegin]).
Proof.
  split; [reflexivity|].
  apply (withTx_begin_fails unreachable succeeds 0%nat 0%nat
           (OtherError "down") 0%nat); reflexivity.
Defined.

Lemma withTx_isolation_fails_witness :
  (db_Begin readOnly 0%nat = (inl 0%nat, 0%nat) ∧
   tx_Exec readOnly 0%nat isolation 0%nat
     = (Some (OtherError "read-only"), 0%nat) ∧
   tx_Rollback readOnly 0%nat 0%nat = (None, 0%nat)) ∧
  withTx readOnly succeeds 1 0%nat =
    Some (Some (OtherError "read-only"), 0%nat,
          [CallBegin; CallExec 0%nat isolation; CallRollback 0%nat]).
Proof.
  split; [repeat split|].
  apply (withTx_isolation_fails readOnly succeeds 0%nat 0%nat 0%nat 0%nat
           0%nat (OtherError "read-only") None 0%nat); reflexivity.
Defined.

Lemma withTx_commit_fails_witness :
  (db_Begin diskFull 0%nat = (inl 0%nat, 0%nat) ∧
   tx_Exec diskFull 0%nat isolation 0%nat = (None, 0%nat) ∧
   succeeds 0%nat 0%nat = (None, 1%nat) ∧
   tx_Commit diskFull 0%nat 1%nat = (Some (PqError "53100"), 1%nat) ∧
   is_serialization_failure (Some (PqError "53100")) = false) ∧
  withTx diskFull succeeds 1 0%nat =
    Some (Some (PqError "53100"), 1%nat,
          [CallBegin; CallExec 0%nat isolation; CallF 0%nat;
           CallCommit 0%nat]).
Proof.
  split; [repeat split|].
  apply (withTx_commit_fails diskFull succeeds 0%nat 0%nat 0%nat 1%nat
           1%nat 0%nat (PqError "53100") 0%nat); reflexivity.
Defined.

Lemma withTx_success_ends_in_commit_witness :
  withTx agreeable (conflictsFirst 1) 2 0%nat =
    Some (None, 2%nat,
          [CallBegin; CallExec 0%nat isolation; CallF 0%nat;
           CallRollback 0%nat;
           CallBegin; CallExec 1%nat isolation; CallF 1%nat;
           CallCommit 1%nat]) ∧
  ∃ t l',
    [CallBegin; CallExec 0%nat isolation; CallF 0%nat; CallRollback 0%nat;
     CallBegin; CallExec 1%nat isolation; CallF 1%nat; CallCommit 1%nat]
    = l' ++ [CallCommit t].
Proof.
  split; [reflexivity|].
  apply (withTx_success_ends_in_commit agreeable (conflictsFirst 1) 2
           0%nat 2%nat). reflexivity.
Defined.

End WithTxEndsRuns.

(** ** postgres: scanRows *)

Section ScanRowsFacts.

Import Postgres PostgresRows.

Context {Row S : Type}.
Variable f : Row → S → option error * S.

Lemma scanLoop_shape (rs : list Row) (s : S) (log : list (rowCall Row)) :
  ∃ visited rest,
    rs = visited ++ rest ∧
    (scanLoop f rs s log).2 = log ++ (CallScan <$> visited) ∧
    ((scanLoop f rs s log).1.1.1 = true ∧ rest = [] ∧
       (scanLoop f rs s log).1.1.2 = None
     ∨ (scanLoop f rs s log).1.1.1 = false ∧ visited ≠ [] ∧
       is_Some (scanLoop f rs s log).1.1.2).
Proof.
  revert s log. induction rs as [|r rs IH]; intros s log.
  - exists [], []. cbn. rewrite app_nil_r.
    split; [reflexivity|]. split; [reflexivity|]. left. repeat split.
  - cbn [scanLoop]. destruct (f r s) as [[e|] s1] eqn:Hf.
    + exists [r], rs. cbn. split; [reflexivity|]. split; [reflexivity|].
      right. split; [reflexivity|]. split; [discriminate | eauto].
    + destruct (IH s1 (log ++ [CallScan r]))
        as (visited & rest & -> & Hlog & Hend).
      exists (r :: visited), rest. split; [reflexivity|].
      split.
      * rewrite Hlog, <- app_assoc. reflexivity.
      * destruct Hend as [(? & ? & ?) | (? & ? & ?)]; [left | right];
          repeat split; try assumption. discriminate.
Qed.

Lemma scanLoop_accepted (rs : list Row) (s : S) (log : list (rowCall Row)) :
  acceptsAll f rs s →
  scanLoop f rs s log = (true, None, stateAfter f rs s, log ++ (CallScan <$> rs)).
Proof.
  revert s log. induction rs as [|r rs IH]; intros s log; cbn.
  - intros _. rewrite app_nil_r. reflexivity.
  - destruct (f r s) as [e s1]. cbn. intros [-> Hrest].
    rewrite (IH s1 _ Hrest), <- app_assoc. reflexivity.
Qed.

Lemma scanLoop_refused (pre post : list Row) (r : Row) (s s' : S)
    (e : error) (log : list (rowCall Row)) :
  acceptsAll f pre s →
  f r (stateAfter f pre s) = (Some e, s') →
  scanLoop f (pre ++ r :: post) s log =
    (false, Some e, s', log ++ (CallScan <$> (pre ++ [r]))).
Proof.
  revert s log. induction pre as [|r0 pre IH]; intros s log; cbn.
  - intros _ ->. reflexivity.
  - destruct (f r0 s) as [e0 s1]. cbn. intros [-> Hrest] Hr.
    rewrite (IH s1 _ Hrest Hr), <- app_assoc. reflexivity.
Qed.

(** X8: [scanRows] hands the rows to the callback in order and stops at
    the first one the callback refuses.  When the callback accepts every
    row, [scanRows] has run it on all of them, returns what [rows.Err()]
    reports and does not close the rows.  When the callback accepts the
    rows [pre] and refuses the next row [r], [scanRows] has run it on
    [pre] and [r] and on no later row, closes the rows, and returns the
    error of the callback on [r]. *)
Theorem scanRows_outcome (rows : Rows Row) (s : S) :
  (acceptsAll f (pending rows) s →
     scanRows f rows s =
       (rowsErr rows, stateAfter f (pending rows) s,
        CallScan <$> pending rows)) ∧
  (∀ pre r post e s',
     pending rows = pre ++ r :: post →
     acceptsAll f pre s →
     f r (stateAfter f pre s) = (Some e, s') →
     scanRows f rows s =
       (Some e, s', (CallScan <$> (pre ++ [r])) ++ [CallClose])).
Proof.
  unfold scanRows. split.
  - intros Hall. rewrite (scanLoop_accepted _ _ _ Hall). reflexivity.
  - intros pre r post e s' -> Hpre Hr.
    rewrite (scanLoop_refused pre post r s s' e [] Hpre Hr). reflexivity.
Qed.

(** X9: the error of [rows.Close()] is never what [scanRows] returns:
    the rows are closed only after the callback failed, and the error of
    the callback is kept. *)
Theorem scanRows_close_error_dropped
    (rs : list Row) (e c1 c2 : option error) (s : S) :
  scanRows f {| pending := rs; rowsErr := e; closeErr := c1 |} s =
  scanRows f {| pending := rs; rowsErr := e; closeErr := c2 |} s.
Proof.
  unfold scanRows. cbn.
  destruct (scanLoop_shape rs s []) as (visited & rest & _ & _ & Hend).
  destruct (scanLoop f rs s []) as [[[d e0] s'] log]. cbn in Hend.
  destruct Hend as [(-> & _ & _) | (-> & _ & [e' ->])]; reflexivity.
Qed.

End ScanRowsFacts.

Section ScanRowsRuns.

Import Postgres PostgresRows.

(** The callback [sumNonZero] on the rows 1, 0, 3: the second row is
    refused, the third is not looked at and the rows are closed; on the
    rows 1, 2, 3 every row is accepted and the rows are not closed. *)
Lemma scanRows_outcome_witness :
  (acceptsAll sumNonZero [1; 2; 3] 0 ∧
   scanRows sumNonZero
     {| pending := [1; 2; 3]; rowsErr := None; closeErr := None |} 0 =
     (None, 6, [CallScan 1; CallScan 2; CallScan 3])) ∧
  (acceptsAll sumNonZero [1] 0 ∧
   sumNonZero 0 (stateAfter sumNonZero [1] 0) = (Some (OtherError "zero"), 1) ∧
   scanRows sumNonZero
     {| pending := [1; 0; 3]; rowsErr := None; closeErr := None |} 0 =
     (Some (OtherError "zero"), 1, [CallScan 1; CallScan 0; CallClose])).
Proof.
  assert (H123 : acceptsAll sumNonZero [1; 2; 3] 0) by (cbn; auto).
  assert (H1 : acceptsAll sumNonZero [1] 0) by (cbn; auto).
  split.
  - split; [exact H123|].
    exact (proj1 (scanRows_outcome sumNonZero
             {| pending := [1; 2; 3]; rowsErr := None; closeErr := None |} 0)
             H123).
  - split; [exact H1|]. split; [reflexivity|].
    exact (proj2 (scanRows_outcome sumNonZero
             {| pending := [1; 0; 3]; rowsErr := None; closeErr := None |} 0)
             [1] 0 [3] (OtherError "zero") 1 eq_refl H1 eq_refl).
Defined.

End ScanRowsRuns.

(** ** postgres: opening the database *)

Section OpeningFacts.

Import Postgres.

Context {World DB Tx Clock : Type}.

(** X10: the connection string handed to the driver never begins with
    ["//"], and rewriting a rewritten string changes nothing. *)
Theorem dataSourceName_has_scheme (s : string) :
  String.prefix "//" (dataSourceName s) = false ∧
  dataSourceName (dataSourceName s) = dataSourceName s.
Proof.
  assert (Hfix : String.prefix "//" (dataSourceName s) = false).
  { rewrite dataSourceName_prefix.
    destruct (String.prefix "//" s) eqn:Hp; [reflexivity | exact Hp]. }
  split; [exact Hfix|].
  rewrite (dataSourceName_prefix (dataSourceName s)), Hfix. reflexivity.
Qed.

(** X11: [NewWithClock] returns a coordinator or an error, never both
    and never neither.  The coordinator holds the clock it was given and
    the database that was opened; when the database cannot be opened the
    schema upgrade is not attempted. *)
Theorem NewWithClock_outcome
    (drv : Driver World DB Tx) (s : string) (clk : Clock) (w : World) :
  (is_Some (NewWithClock drv s clk w).1.1.1
     ↔ (NewWithClock drv s clk w).1.1.2 = None) ∧
  (∀ c, (NewWithClock drv s clk w).1.1.1 = Some c →
        clock c = clk ∧
        (sql_Open drv "postgres" (dataSourceName s) w).1 = inl (db c) ∧
        (NewWithClock drv s clk w).2 =
          [CallOpen "postgres" (dataSourceName s); CallUpgrade]) ∧
  (∀ e w1, sql_Open drv "postgres" (dataSourceName s) w = (inr e, w1) →
        NewWithClock drv s clk w =
          ((None, Some e), w1, [CallOpen "postgres" (dataSourceName s)])).
Proof.
  unfold NewWithClock.
  destruct (sql_Open drv "postgres" (dataSourceName s) w) as [[d|e] w1].
  - destruct (Upgrade drv d w1) as [[e|] w2]; cbn.
    + split; [split; [intros [? [=]] | discriminate]|].
      split; [discriminate|]. intros ? ? [=].
    + split; [split; [reflexivity | eauto]|].
      split; [|intros ? ? [=]].
      intros c [= <-]. repeat split.
  - cbn. split; [split; [intros [? [=]] | discriminate]|].
    split; [discriminate|]. intros ? ? [= <- <-]. reflexivity.
Qed.

End OpeningFacts.

(** ** coordinatetest: HasKeys and AttemptMatches *)

Section CheckerFacts.

Import Cborrpc Checkers.

Lemma missingKey_accepts (m : gmap string value) (ks : list string) :
  missingKey m ks = (true, ""%string) ↔ ∀ k, k ∈ ks → is_Some (m !! k).
Proof.
  induction ks as [|k ks IH]; cbn.
  - split; [intros _ k Hk; inversion Hk | reflexivity].
  - destruct (m !! k) as [v|] eqn:Hk.
    + rewrite IH. split.
      * intros Hall k' Hk'. apply elem_of_cons in Hk' as [-> | Hk'];
          [rewrite Hk; eauto | auto].
      * intros Hall k' Hk'. apply Hall. apply elem_of_cons. auto.
    + split; [discriminate|]. intros Hall.
      destruct (Hall k) as [v Hv]; [apply elem_of_cons; auto|]. congruence.
Qed.

Lemma missingKey_refuses (m : gmap string value) (ks : list string)
    (msg : string) :
  missingKey m ks = (false, msg) →
  ∃ pre k post, ks = pre ++ k :: post ∧
                (∀ k', k' ∈ pre → is_Some (m !! k')) ∧
                m !! k = None ∧ msg = ("missing key " ++ k)%string.
Proof.
  induction ks as [|k ks IH]; cbn; [discriminate|].
  destruct (m !! k) as [v|] eqn:Hk.
  - intros Hrest. destruct (IH Hrest) as (pre & k0 & post & -> & Hpre & Hk0 & ->).
    exists (k :: pre), k0, post. repeat split; try assumption.
    intros k' Hk'. apply elem_of_cons in Hk' as [-> | Hk'];
      [rewrite Hk; eauto | auto].
  - intros [= <-]. exists [], k, ks. repeat split; try assumption.
    intros k' Hk'. inversion Hk'.
Qed.

(** X12: on a map and a list of keys, HasKeys accepts exactly when every
    listed key is in the map, whatever is stored under it and whatever
    else the map holds; when it refuses, the message names the first
    listed key that is missing. *)
Theorem hasKeys_Check_spec
    (m : gmap string value) (ks : list string) (n0 n1 : string) :
  (hasKeys_Check [OMap m; OStrings ks] [n0; n1] = Some (true, ""%string)
     ↔ ∀ k, k ∈ ks → is_Some (m !! k)) ∧
  (∀ m', m ⊆ m' →
     hasKeys_Check [OMap m; OStrings ks] [n0; n1] = Some (true, ""%string) →
     hasKeys_Check [OMap m'; OStrings ks] [n0; n1] = Some (true, ""%string)) ∧
  (∀ msg,
     hasKeys_Check [OMap m; OStrings ks] [n0; n1] = Some (false, msg) →
     ∃ pre k post, ks = pre ++ k :: post ∧
                   (∀ k', k' ∈ pre → is_Some (m !! k')) ∧
                   m !! k = None ∧ msg = ("missing key " ++ k)%string).
Proof.
  assert (Hiff : ∀ m0, hasKeys_Check [OMap m0; OStrings ks] [n0; n1]
                         = Some (true, ""%string)
                       ↔ ∀ k, k ∈ ks → is_Some (m0 !! k)).
  { intros m0. cbn. rewrite <- missingKey_accepts.
    split; [intros [= ->]; reflexivity | intros ->; reflexivity]. }
  split; [apply Hiff|]. split.
  - intros m' Hsub Hm. apply Hiff. intros k Hk.
    destruct (proj1 (Hiff m) Hm k Hk) as [v Hv].
    exists v. eapply lookup_weaken; eassumption.
  - intros msg. cbn. intros [= Hmsg]. apply missingKey_refuses. exact Hmsg.
Qed.

(** X13: on two attempts, AttemptMatches accepts exactly when the names
    of the workers, of the work units and of the work specs agree; so it
    accepts an attempt against itself, and does not depend on the order
    of the two. *)
Theorem attemptMatches_Check_spec (a b : Attempt) (names : list string) :
  ((attemptMatches_Check [OAttempt a; OAttempt b] names).1 = true
     ↔ Worker_Name a = Worker_Name b ∧
       WorkUnit_Name a = WorkUnit_Name b ∧
       WorkSpec_Name a = WorkSpec_Name b) ∧
  (attemptMatches_Check [OAttempt a; OAttempt a] names).1 = true ∧
  (attemptMatches_Check [OAttempt a; OAttempt b] names).1 =
  (attemptMatches_Check [OAttempt b; OAttempt a] names).1.
Proof.
  assert (Hiff : ∀ x y,
    (attemptMatches_Check [OAttempt x; OAttempt y] names).1 = true
    ↔ Worker_Name x = Worker_Name y ∧ WorkUnit_Name x = WorkUnit_Name y ∧
      WorkSpec_Name x = WorkSpec_Name y).
  { intros x y. cbn.
    destruct (String.eqb_spec (Worker_Name x) (Worker_Name y)) as [->|Hw];
      cbn; [|split; [discriminate | intros (? & _); congruence]].
    destruct (String.eqb_spec (WorkUnit_Name x) (WorkUnit_Name y)) as [->|Hu];
      cbn; [|split; [discriminate | intros (_ & ? & _); congruence]].
    destruct (String.eqb_spec (WorkSpec_Name x) (WorkSpec_Name y)) as [->|Hs];
      cbn; [|split; [discriminate | intros (_ & _ & ?); congruence]].
    split; auto. }
  split; [apply Hiff|]. split; [apply Hiff; auto|].
  destruct ((attemptMatches_Check [OAttempt b; OAttempt a] names).1) eqn:Hba.
  - apply Hiff. apply Hiff in Hba as (-> & -> & ->). auto.
  - apply not_true_is_false. intros Hab. apply Hiff in Hab as (Hw & Hu & Hs).
    assert ((attemptMatches_Check [OAttempt b; OAttempt a] names).1 = true)
      by (apply Hiff; auto).
    congruence.
Qed.

End CheckerFacts.

(** ** memory: what the object graph keeps *)

Section GraphFacts.

Import Cborrpc Memory MemoryGraph.

Context `{Objects}.

Implicit Types (st : memState) (ns l : loc) (o : namespace) (n : string).

(** A pointer that was just allocated is held by no namespace. *)
Lemma fresh_spec_unbound st ns o n :
  wf st → nsHeap st !! ns = Some o →
  workSpecs o !! n ≠ Some (fresh (dom (specHeap st))).
Proof.
  intros Hwf Hns Hl. destruct (Hwf _ _ _ _ Hns Hl) as [s Hs].
  apply elem_of_dom_2 in Hs. exact (is_fresh _ Hs).
Qed.

Lemma fresh_worker_unbound st ns o n :
  workers_allocated st → nsHeap st !! ns = Some o →
  workers o !! n ≠ Some (fresh (dom (workerHeap st))).
Proof.
  intros Hwf Hns Hl. destruct (Hwf _ _ _ _ Hns Hl) as [s Hs].
  apply elem_of_dom_2 in Hs. exact (is_fresh _ Hs).
Qed.

Lemma Destroy_graph_ok st st' ns r :
  graph_ok st → Destroy ns st = Some (r, st') → graph_ok st'.
Proof.
  intros Hok. unfold Destroy.
  destruct (nsHeap st !! ns) as [o|]; [|discriminate]. cbn.
  intros [= _ <-]. exact Hok.
Qed.

Lemma DestroyWorkSpec_graph_ok st st' ns n r :
  graph_ok st → DestroyWorkSpec ns n st = Some (r, st') → graph_ok st'.
Proof.
  intros (Hwf & Hwa & Hsu & Hwu). unfold DestroyWorkSpec.
  destruct (nsHeap st !! ns) as [o|] eqn:Hns; [|discriminate]. cbn.
  destruct (workSpecs o !! n) as [l|] eqn:Hl; intros [= _ <-];
    [|exact (conj Hwf (conj Hwa (conj Hsu Hwu)))].
  assert (Hold : ∀ ns2 o2,
    <[ns := set_workSpecs (delete n (workSpecs o)) o]> (nsHeap st) !! ns2
      = Some o2 →
    ∃ o1, nsHeap st !! ns2 = Some o1 ∧ workers o2 = workers o1 ∧
          ∀ n2 l2, workSpecs o2 !! n2 = Some l2 → workSpecs o1 !! n2 = Some l2).
  { intros ns2 o2 [[<- <-] | [Hne Ho2]]%lookup_insert_Some.
    - exists o. cbn. repeat split; [assumption|].
      intros n2 l2 [_ ?]%lookup_delete_Some. assumption.
    - exists o2. auto. }
  split; [|split; [|split]].
  - intros ns2 o2 n2 l2 Hns2 Hl2. cbn in *.
    destruct (Hold _ _ Hns2) as (o1 & Ho1 & _ & Hsp). eauto.
  - intros ns2 o2 n2 l2 Hns2 Hl2. cbn in *.
    destruct (Hold _ _ Hns2) as (o1 & Ho1 & Hw & _). rewrite Hw in Hl2. eauto.
  - intros ns1 ns2 o1 o2 n1 n2 l0 H1 H2 H3 H4. cbn in *.
    destruct (Hold _ _ H1) as (o1' & Ho1 & _ & Hsp1).
    destruct (Hold _ _ H2) as (o2' & Ho2 & _ & Hsp2).
    eapply Hsu; eauto.
  - intros ns1 ns2 o1 o2 n1 n2 l0 H1 H2 H3 H4. cbn in *.
    destruct (Hold _ _ H1) as (o1' & Ho1 & Hw1 & _).
    destruct (Hold _ _ H2) as (o2' & Ho2 & Hw2 & _).
    rewrite Hw1 in H3. rewrite Hw2 in H4. eapply Hwu; eauto.
Qed.

Lemma insert_keeps_allocated {A : Type} (m : gmap loc A) (l l2 : loc) (x : A) :
  is_Some (m !! l2) → is_Some (<[l := x]> m !! l2).
Proof.
  intros Hl2. destruct (decide (l = l2)) as [<-|Hne].
  - rewrite lookup_insert_eq. eauto.
  - rewrite lookup_insert_ne by exact Hne. exact Hl2.
Qed.

Lemma Worker_graph_ok st st' ns n r :
  graph_ok st → Worker ns n st = Some (r, st') → graph_ok st'.
Proof.
  intros (Hwf & Hwa & Hsu & Hwu). unfold Worker.
  destruct (nsHeap st !! ns) as [o|] eqn:Hns; [|discriminate]. cbn.
  destruct (workers o !! n) as [l0|] eqn:Hl; intros [= _ <-];
    [exact (conj Hwf (conj Hwa (conj Hsu Hwu)))|].
  set (l := fresh (dom (workerHeap st))).
  assert (Hold : ∀ ns2 o2,
    <[ns := set_workers (<[n := l]> (workers o)) o]> (nsHeap st) !! ns2
      = Some o2 →
    ∃ o1, nsHeap st !! ns2 = Some o1 ∧ workSpecs o2 = workSpecs o1 ∧
          ∀ n2 l2, workers o2 !! n2 = Some l2 →
                   (ns2 = ns ∧ n2 = n ∧ l2 = l) ∨ workers o1 !! n2 = Some l2).
  { intros ns2 o2 [[<- <-] | [Hne Ho2]]%lookup_insert_Some.
    - exists o. cbn. repeat split; [assumption|].
      intros n2 l2 [[<- <-] | [_ ?]]%lookup_insert_Some; auto.
    - exists o2. auto. }
  split; [|split; [|split]].
  - intros ns2 o2 n2 l2 Hns2 Hl2. cbn in *.
    destruct (Hold _ _ Hns2) as (o1 & Ho1 & Hsp & _). rewrite Hsp in Hl2.
    eauto.
  - intros ns2 o2 n2 l2 Hns2 Hl2. cbn in *.
    destruct (Hold _ _ Hns2) as (o1 & Ho1 & _ & Hw).
    destruct (Hw _ _ Hl2) as [(_ & _ & ->) | Hl2'].
    + rewrite lookup_insert_eq. eauto.
    + apply insert_keeps_allocated. eauto.
  - intros ns1 ns2 o1 o2 n1 n2 l0 H1 H2 H3 H4. cbn in *.
    destruct (Hold _ _ H1) as (o1' & Ho1 & Hsp1 & _).
    destruct (Hold _ _ H2) as (o2' & Ho2 & Hsp2 & _).
    rewrite Hsp1 in H3. rewrite Hsp2 in H4. eapply Hsu; eauto.
  - intros ns1 ns2 o1 o2 n1 n2 l0 H1 H2 H3 H4. cbn in *.
    destruct (Hold _ _ H1) as (o1' & Ho1 & _ & Hw1).
    destruct (Hold _ _ H2) as (o2' & Ho2 & _ & Hw2).
    destruct (Hw1 _ _ H3) as [(-> & -> & ->) | H3'];
      destruct (Hw2 _ _ H4) as [(-> & -> & E) | H4']; auto.
    + exfalso. exact (fresh_worker_unbound st ns2 o2' n2 Hwa Ho2 H4').
    + subst l0. exfalso. exact (fresh_worker_unbound st ns1 o1' n1 Hwa Ho1 H3').
    + eapply Hwu; eauto.
Qed.

Lemma SetWorkSpec_graph_ok st st' ns d r :
  graph_ok st → SetWorkSpec ns d st = Some (r, st') → graph_ok st'.
Proof.
  intros (Hwf & Hwa & Hsu & Hwu). unfold SetWorkSpec.
  destruct (nsHeap st !! ns) as [o|] eqn:Hns; [|discriminate]. cbn.
  destruct (default VNil (d !! "name"%string)) as [| | | | |n| | | |];
    try (intros [= _ <-]; exact (conj Hwf (conj Hwa (conj Hsu Hwu)))).
  destruct (workSpecs o !! n) as [l0|] eqn:Hl; cbn.
  - destruct (specHeap st !! l0) as [s0|]; [|discriminate]. cbn.
    assert (Hst : ∀ s', graph_ok (store_spec l0 s' st)).
    { intros s'. split; [|split; [|split]]; try assumption.
      intros ns2 o2 n2 l2 Hns2 Hl2. cbn in *.
      apply insert_keeps_allocated. eauto. }
    destruct (setData s0 d) as [s' [e|]]; intros [= _ <-]; apply Hst.
  - set (l := fresh (dom (specHeap st))).
    rewrite lookup_insert_eq. cbn.
    assert (Hold : ∀ ns2 o2,
      <[ns := set_workSpecs (<[n := l]> (workSpecs o)) o]> (nsHeap st) !! ns2
        = Some o2 →
      ∃ o1, nsHeap st !! ns2 = Some o1 ∧ workers o2 = workers o1 ∧
            ∀ n2 l2, workSpecs o2 !! n2 = Some l2 →
                     (ns2 = ns ∧ n2 = n ∧ l2 = l) ∨ workSpecs o1 !! n2 = Some l2).
    { intros ns2 o2 [[<- <-] | [Hne Ho2]]%lookup_insert_Some.
      - exists o. cbn. repeat split; [assumption|].
        intros n2 l2 [[<- <-] | [_ ?]]%lookup_insert_Some; auto.
      - exists o2. auto. }
    assert (Hst : ∀ s',
      graph_ok (store_spec l s'
        (store_ns ns (set_workSpecs (<[n := l]> (workSpecs o)) o)
           (store_spec l (newWorkSpec ns n) st)))).
    { intros s'. split; [|split; [|split]].
      - intros ns2 o2 n2 l2 Hns2 Hl2. cbn in *.
        destruct (Hold _ _ Hns2) as (o1 & Ho1 & _ & Hsp).
        destruct (Hsp _ _ Hl2) as [(_ & _ & ->) | Hl2'].
        + rewrite lookup_insert_eq. eauto.
        + do 2 apply insert_keeps_allocated. eauto.
      - intros ns2 o2 n2 l2 Hns2 Hl2. cbn in *.
        destruct (Hold _ _ Hns2) as (o1 & Ho1 & Hw & _). rewrite Hw in Hl2.
        eauto.
      - intros ns1 ns2 o1 o2 n1 n2 l0 H1 H2 H3 H4. cbn in *.
        destruct (Hold _ _ H1) as (o1' & Ho1 & _ & Hsp1).
        destruct (Hold _ _ H2) as (o2' & Ho2 & _ & Hsp2).
        destruct (Hsp1 _ _ H3) as [(-> & -> & ->) | H3'];
          destruct (Hsp2 _ _ H4) as [(-> & -> & E) | H4']; auto.
        + exfalso. exact (fresh_spec_unbound st ns2 o2' n2 Hwf Ho2 H4').
        + subst l0. exfalso. exact (fresh_spec_unbound st ns1 o1' n1 Hwf Ho1 H3').
        + eapply Hsu; eauto.
      - intros ns1 ns2 o1 o2 n1 n2 l0 H1 H2 H3 H4. cbn in *.
        destruct (Hold _ _ H1) as (o1' & Ho1 & Hw1 & _).
        destruct (Hold _ _ H2) as (o2' & Ho2 & Hw2 & _).
        rewrite Hw1 in H3. rewrite Hw2 in H4. eapply Hwu; eauto. }
    destruct (setData (newWorkSpec ns n) d) as [s' [e|]]; intros [= _ <-];
      apply Hst.
Qed.

(** X14: every operation of a namespace keeps the shape of the object
    graph: each pointer held under a name is allocated, and no work spec
    and no worker is held under two names or in two namespaces. *)
Theorem graph_ok_preserved st ns :
  graph_ok st →
  (∀ r st', Destroy ns st = Some (r, st') → graph_ok st') ∧
  (∀ d r st', SetWorkSpec ns d st = Some (r, st') → graph_ok st') ∧
  (∀ n r st', DestroyWorkSpec ns n st = Some (r, st') → graph_ok st') ∧
  (∀ n r st', Worker ns n st = Some (r, st') → graph_ok st').
Proof.
  intros Hok. split; [|split; [|split]].
  - intros r st'. apply Destroy_graph_ok. exact Hok.
  - intros d r st'. apply SetWorkSpec_graph_ok. exact Hok.
  - intros n r st'. apply DestroyWorkSpec_graph_ok. exact Hok.
  - intros n r st'. apply Worker_graph_ok. exact Hok.
Qed.

Lemma Worker_binds st st' ns n l e :
  Worker ns n st = Some ((l, e), st') →
  ∃ o', nsHeap st' !! ns = Some o' ∧ workers o' !! n = Some l.
Proof.
  unfold Worker. destruct (nsHeap st !! ns) as [o|] eqn:Hns; [|discriminate].
  cbn. destruct (workers o !! n) as [l0|] eqn:Hl; intros [= <- _ <-].
  - eauto.
  - eexists. cbn. split; apply lookup_insert_eq.
Qed.

Lemma Worker_keeps_bindings st st' ns n r ns0 o0 n0 l0 :
  Worker ns n st = Some (r, st') →
  nsHeap st !! ns0 = Some o0 → workers o0 !! n0 = Some l0 →
  ∃ o0', nsHeap st' !! ns0 = Some o0' ∧ workers o0' !! n0 = Some l0.
Proof.
  unfold Worker. destruct (nsHeap st !! ns) as [o|] eqn:Hns; [|discriminate].
  cbn. destruct (workers o !! n) as [l|] eqn:Hl; intros [= _ <-] Hns0 Hl0.
  - eauto.
  - cbn. destruct (decide (ns = ns0)) as [<-|Hne].
    + rewrite lookup_insert_eq. eexists. split; [reflexivity|]. cbn.
      assert (o0 = o) as -> by congruence.
      rewrite lookup_insert_ne; [exact Hl0 | congruence].
    + rewrite lookup_insert_ne by exact Hne. eauto.
Qed.

(** X15: two calls of [Worker] under different names, or through
    different namespaces, return different workers. *)
Theorem Worker_distinct st st1 st2 ns1 ns2 n1 n2 l1 l2 e1 e2 :
  graph_ok st →
  ns1 ≠ ns2 ∨ n1 ≠ n2 →
  Worker ns1 n1 st = Some ((l1, e1), st1) →
  Worker ns2 n2 st1 = Some ((l2, e2), st2) →
  l1 ≠ l2.
Proof.
  intros Hok Hdiff Hw1 Hw2 <-.
  assert (Hok2 : graph_ok st2).
  { eapply Worker_graph_ok; [|exact Hw2].
    eapply Worker_graph_ok; [exact Hok | exact Hw1]. }
  destruct (Worker_binds _ _ _ _ _ _ Hw1) as (o1 & Ho1 & Hb1).
  destruct (Worker_keeps_bindings _ _ _ _ _ _ _ _ _ Hw2 Ho1 Hb1)
    as (o1' & Ho1' & Hb1').
  destruct (Worker_binds _ _ _ _ _ _ Hw2) as (o2 & Ho2 & Hb2).
  destruct Hok2 as (_ & _ & _ & Hwu).
  destruct (Hwu _ _ _ _ _ _ _ Ho1' Ho2 Hb1' Hb2) as [-> ->].
  destruct Hdiff; congruence.
Qed.

(** X16: [WorkSpecNames] lists every work spec of the namespace once:
    a name is in the list exactly when [WorkSpec] finds it, and the list
    is as long as the map; the state is not changed. *)
Theorem WorkSpecNames_spec st ns o :
  nsHeap st !! ns = Some o →
  ∃ names,
    WorkSpecNames ns st = Some ((names, None), st) ∧
    NoDup names ∧
    length names = size (workSpecs o) ∧
    ∀ n, n ∈ names ↔ ∃ l, WorkSpec ns n st = Some ((Some l, None), st).
Proof.
  intros Hns. unfold WorkSpecNames, WorkSpec. rewrite Hns. cbn.
  eexists. split; [reflexivity|].
  split; [apply NoDup_fst_map_to_list|].
  split; [rewrite length_fmap; apply length_map_to_list|].
  intros n. rewrite list_elem_of_fmap. split.
  - intros ([n' l] & -> & Hin%elem_of_map_to_list). cbn.
    exists l. rewrite Hin. reflexivity.
  - intros [l Hl]. destruct (workSpecs o !! n) as [l'|] eqn:Hn;
      [|discriminate].
    exists (n, l'). split; [reflexivity|]. apply elem_of_map_to_list.
    exact Hn.
Qed.

(** X17: [SetWorkSpec] touches the work spec named in the data and
    nothing else: the coordinator's map, the workers, the other
    namespaces, the other names of the namespace and the other work
    specs are as before, whether it succeeds or fails. *)
Theorem SetWorkSpec_frame st st' ns o d r :
  nsHeap st !! ns = Some o → wf st →
  SetWorkSpec ns d st = Some (r, st') →
  namespaces st' = namespaces st ∧
  workerHeap st' = workerHeap st ∧
  (∀ ns', ns' ≠ ns → nsHeap st' !! ns' = nsHeap st !! ns') ∧
  (∃ o', nsHeap st' !! ns = Some o' ∧ name o' = name o ∧
         workers o' = workers o ∧
         ∀ n', d !! "name"%string ≠ Some (VString n') →
               workSpecs o' !! n' = workSpecs o !! n') ∧
  (∀ l' s, specHeap st !! l' = Some s →
           (∀ n', d !! "name"%string = Some (VString n') →
                  workSpecs o !! n' ≠ Some l') →
           specHeap st' !! l' = Some s).
Proof.
  intros Hns Hwf. unfold SetWorkSpec. rewrite Hns. cbn.
  assert (Hsame : namespaces st = namespaces st ∧
    workerHeap st = workerHeap st ∧
    (∀ ns', ns' ≠ ns → nsHeap st !! ns' = nsHeap st !! ns') ∧
    (∃ o', nsHeap st !! ns = Some o' ∧ name o' = name o ∧
           workers o' = workers o ∧
           ∀ n', d !! "name"%string ≠ Some (VString n') →
                 workSpecs o' !! n' = workSpecs o !! n') ∧
    (∀ l' s, specHeap st !! l' = Some s →
             (∀ n', d !! "name"%string = Some (VString n') →
                    workSpecs o !! n' ≠ Some l') →
             specHeap st !! l' = Some s)).
  { repeat split; eauto. }
  destruct (d !! "name"%string) as [v|] eqn:Hd; cbn;
    [|intros [= _ <-]; exact Hsame].
  destruct v as [| | | | |n| | | |];
    try (intros [= _ <-]; exact Hsame).
  destruct (workSpecs o !! n) as [l0|] eqn:Hl; cbn.
  - destruct (specHeap st !! l0) as [s0|] eqn:Hs0; [|discriminate]. cbn.
    assert (Hst : ∀ s', namespaces (store_spec l0 s' st) = namespaces st ∧
      workerHeap (store_spec l0 s' st) = workerHeap st ∧
      (∀ ns', ns' ≠ ns →
         nsHeap (store_spec l0 s' st) !! ns' = nsHeap st !! ns') ∧
      (∃ o', nsHeap (store_spec l0 s' st) !! ns = Some o' ∧
             name o' = name o ∧ workers o' = workers o ∧
             ∀ n', Some (VString n) ≠ Some (VString n') →
                   workSpecs o' !! n' = workSpecs o !! n') ∧
      (∀ l' s, specHeap st !! l' = Some s →
               (∀ n', Some (VString n) = Some (VString n') →
                      workSpecs o !! n' ≠ Some l') →
               specHeap (store_spec l0 s' st) !! l' = Some s)).
    { intros s'. cbn. split; [reflexivity|]. split; [reflexivity|].
      split; [reflexivity|]. split; [eauto|].
      intros l' s Hl' Hother. rewrite lookup_insert_ne; [exact Hl'|].
      intros <-. exact (Hother n eq_refl Hl). }
    destruct (setData s0 d) as [s' [e|]]; intros [= _ <-]; apply Hst.
  - rewrite lookup_insert_eq. cbn.
    set (l := fresh (dom (specHeap st))).
    set (st1 := store_ns ns (set_workSpecs (<[n := l]> (workSpecs o)) o)
                  (store_spec l (newWorkSpec ns n) st)).
    assert (Hst : ∀ s', namespaces (store_spec l s' st1) = namespaces st ∧
      workerHeap (store_spec l s' st1) = workerHeap st ∧
      (∀ ns', ns' ≠ ns →
         nsHeap (store_spec l s' st1) !! ns' = nsHeap st !! ns') ∧
      (∃ o', nsHeap (store_spec l s' st1) !! ns = Some o' ∧
             name o' = name o ∧ workers o' = workers o ∧
             ∀ n', Some (VString n) ≠ Some (VString n') →
                   workSpecs o' !! n' = workSpecs o !! n') ∧
      (∀ l' s, specHeap st !! l' = Some s →
               (∀ n', Some (VString n) = Some (VString n') →
                      workSpecs o !! n' ≠ Some l') →
               specHeap (store_spec l s' st1) !! l' = Some s)).
    { intros s'. cbn. split; [reflexivity|]. split; [reflexivity|].
      split; [intros ns' Hne; apply lookup_insert_ne; congruence|].
      split.
      - eexists. split; [apply lookup_insert_eq|]. cbn.
        split; [reflexivity|]. split; [reflexivity|].
        intros n' Hn'. apply lookup_insert_ne. congruence.
      - intros l' s Hl' _.
        assert (l ≠ l').
        { intros <-. apply elem_of_dom_2 in Hl'. exact (is_fresh _ Hl'). }
        rewrite !lookup_insert_ne by assumption. exact Hl'. }
    destruct (setData (newWorkSpec ns n) d) as [s' [e|]]; intros [= _ <-];
      apply Hst.
Qed.

(** X18: a work spec that is destroyed and set again is a new object:
    the pointer differs from the old one, the object is made by
    [newWorkSpec] and [setData] alone, and the old object stays as it
    was for those who still hold its pointer. *)
Theorem SetWorkSpec_after_destroy st st1 st2 ns o d n l1 l2 :
  nsHeap st !! ns = Some o → wf st →
  workSpecs o !! n = Some l1 →
  d !! "name"%string = Some (VString n) →
  DestroyWorkSpec ns n st = Some (None, st1) →
  SetWorkSpec ns d st1 = Some ((Some l2, None), st2) →
  l2 ≠ l1 ∧
  specHeap st2 !! l1 = specHeap st !! l1 ∧
  specHeap st2 !! l2 = Some (setData (newWorkSpec ns n) d).1.
Proof.
  intros Hns Hwf Hl1 Hd. unfold DestroyWorkSpec. rewrite Hns. cbn.
  rewrite Hl1. intros [= <-]. unfold SetWorkSpec. cbn.
  rewrite lookup_insert_eq. cbn. rewrite Hd. cbn.
  rewrite lookup_delete_eq. cbn. rewrite lookup_insert_eq. cbn.
  destruct (setData (newWorkSpec ns n) d) as [s' [e|]] eqn:Hsd;
    [discriminate|].
  intros [= <- <-]. cbn.
  assert (Hne : fresh (dom (specHeap st)) ≠ l1).
  { intros Heq. destruct (Hwf _ _ _ _ Hns Hl1) as [s Hs].
    apply elem_of_dom_2 in Hs. rewrite <- Heq in Hs. exact (is_fresh _ Hs). }
  split; [exact Hne|]. split.
  - rewrite !lookup_insert_ne by exact Hne. reflexivity.
  - apply lookup_insert_eq.
Qed.

End GraphFacts.

Section GraphRuns.

Import Cborrpc Memory MemoryGraph.

Lemma graph_ok_emptyState : graph_ok emptyState.
Proof.
  split; [exact wf_emptyState|]. split; [|split].
  - intros ns o n l Hns Hl. cbn in Hns.
    apply lookup_singleton_Some in Hns as [_ <-]. cbn in Hl.
    rewrite lookup_empty in Hl. discriminate.
  - intros ns1 ns2 o1 o2 n1 n2 l Hns1 _ Hl1 _. cbn in Hns1.
    apply lookup_singleton_Some in Hns1 as [_ <-]. cbn in Hl1.
    rewrite lookup_empty in Hl1. discriminate.
  - intros ns1 ns2 o1 o2 n1 n2 l Hns1 _ Hl1 _. cbn in Hns1.
    apply lookup_singleton_Some in Hns1 as [_ <-]. cbn in Hl1.
    rewrite lookup_empty in Hl1. discriminate.
Qed.

Lemma graph_ok_busyState : graph_ok busyState.
Proof.
  split; [exact wf_busyState|]. split; [|split].
  - intros ns o n l Hns Hl. cbn in Hns.
    apply lookup_singleton_Some in Hns as [_ <-]. cbn in Hl.
    rewrite lookup_empty in Hl. discriminate.
  - intros ns1 ns2 o1 o2 n1 n2 l Hns1 Hns2 Hl1 Hl2. cbn in Hns1, Hns2.
    apply lookup_singleton_Some in Hns1 as [<- <-].
    apply lookup_singleton_Some in Hns2 as [<- <-]. cbn in Hl1, Hl2.
    apply lookup_singleton_Some in Hl1 as [<- _].
    apply lookup_singleton_Some in Hl2 as [<- _]. done.
  - intros ns1 ns2 o1 o2 n1 n2 l Hns1 _ Hl1 _. cbn in Hns1.
    apply lookup_singleton_Some in Hns1 as [_ <-]. cbn in Hl1.
    rewrite lookup_empty in Hl1. discriminate.
Qed.

Lemma graph_ok_preserved_witness :
  graph_ok busyState ∧
  SetWorkSpec 1%positive sampleData busyState
    = Some ((Some 1%positive, None), updatedState) ∧
  graph_ok updatedState.
Proof.
  split; [exact graph_ok_busyState|]. split; [reflexivity|].
  destruct (graph_ok_preserved (H := specObjects) busyState 1%positive
              graph_ok_busyState) as (_ & Hset & _).
  exact (Hset sampleData (Some 1%positive, None) updatedState eq_refl).
Defined.

Lemma Worker_distinct_witness :
  graph_ok emptyState ∧
  ∃ (l1 l2 : loc) (st1 st2 : @memState specObjects),
    Worker 1%positive "a" emptyState = Some ((l1, None), st1) ∧
    Worker 1%positive "b" st1 = Some ((l2, None), st2) ∧
    l1 ≠ l2.
Proof.
  split; [exact graph_ok_emptyState|].
  eexists _, _, _, _. split; [reflexivity|]. split; [reflexivity|].
  eapply (Worker_distinct (H := specObjects) emptyState _ _
            1%positive 1%positive "a"%string "b"%string).
  - exact graph_ok_emptyState.
  - right. discriminate.
  - reflexivity.
  - reflexivity.
Defined.

Lemma WorkSpecNames_witness :
  nsHeap busyState !! 1%positive = Some busyNamespace ∧
  ∃ names,
    WorkSpecNames 1%positive busyState = Some ((names, None), busyState) ∧
    NoDup names ∧
    length names = size (workSpecs busyNamespace) ∧
    ∀ n, n ∈ names ↔
         ∃ l, WorkSpec 1%positive n busyState
              = Some ((Some l, None), busyState).
Proof.
  split; [reflexivity|].
  exact (WorkSpecNames_spec (H := specObjects) busyState 1%positive
           busyNamespace eq_refl).
Defined.

Lemma SetWorkSpec_frame_witness :
  (nsHeap busyState !! 1%positive = Some busyNamespace ∧
   wf busyState ∧
   SetWorkSpec 1%positive sampleData busyState
     = Some ((Some 1%positive, None), updatedState)) ∧
  namespaces updatedState = namespaces busyState ∧
  workerHeap updatedState = workerHeap busyState.
Proof.
  split; [repeat split; exact wf_busyState|].
  destruct (SetWorkSpec_frame (H := specObjects) busyState updatedState
              1%positive busyNamespace sampleData (Some 1%positive, None)
              eq_refl wf_busyState eq_refl) as (Hn & Hw & _).
  split; [exact Hn | exact Hw].
Defined.

Lemma SetWorkSpec_after_destroy_witness :
  (nsHeap busyState !! 1%positive = Some busyNamespace ∧
   wf busyState ∧
   workSpecs busyNamespace !! "s1"%string = Some 1%positive ∧
   sampleData !! "name"%string = Some (VString "s1")) ∧
  ∃ (st1 st2 : @memState specObjects) (l2 : loc),
    DestroyWorkSpec 1%positive "s1" busyState = Some (None, st1) ∧
    SetWorkSpec 1%positive sampleData st1 = Some ((Some l2, None), st2) ∧
    l2 ≠ 1%positive ∧
    specHeap st2 !! 1%positive = Some busySpec ∧
    (so_workUnits <$> specHeap st2 !! l2) = Some ∅.
Proof.
  split; [repeat split; exact wf_busyState|].
  eexists _, _, _. split; [reflexivity|]. split; [reflexivity|].
  destruct (SetWorkSpec_after_destroy (H := specObjects) busyState _ _
              1%positive busyNamespace sampleData "s1"%string 1%positive _
              eq_refl wf_busyState eq_refl eq_refl eq_refl eq_refl)
    as (Hne & Hold & Hnew).
  split; [exact Hne|]. split; [exact Hold|].
  exact (f_equal (fmap so_workUnits) Hnew).
Defined.

Lemma SetWorkSpec_binds_before_setData_witness :
  (nsHeap emptyState !! 1%positive = Some (newNamespace "") ∧
   ({[ "name"%string := VString "s2"; "weight"%string := VInt (-1) ]}
      : gmap string value) !! "name"%string = Some (VString "s2") ∧
   workSpecs (newNamespace "") !! "s2"%string = None) ∧
  ∃ r (st' : @memState specObjects) o',
    SetWorkSpec 1%positive
      {[ "name"%string := VString "s2"; "weight"%string := VInt (-1) ]}
      emptyState = Some (r, st') ∧
    r.2 = Some (ErrOther "weight") ∧
    nsHeap st' !! 1%positive = Some o' ∧
    workSpecs o' !! "s2"%string = Some 1%positive.
Proof.
  assert (Hname :
    ({[ "name"%string := VString "s2"; "weight"%string := VInt (-1) ]}
       : gmap string value) !! "name"%string = Some (VString "s2"))
    by (vm_compute; reflexivity).
  split; [repeat split; exact Hname|].
  destruct (SetWorkSpec_binds_before_setData (H := specObjects) emptyState
              1%positive (newNamespace "")
              {[ "name"%string := VString "s2"; "weight"%string := VInt (-1) ]}
              "s2"%string eq_refl Hname eq_refl)
    as (r & st' & o' & Hrun & Herr & Hns & Hbound).
  exists r, st', o'. repeat split; assumption.
Defined.

End GraphRuns.
